(** * Admission control of the books service: token bucket, middleware,
      request metrics and scalability assessment

    Shallow embedding of
    - [middleware/rateLimiter.ts]          (class [TokenBucket]),
    - [middleware/rateLimitMiddleware.ts]  ([createRateLimitMiddleware],
      [createConfiguredRateLimiter]),
    - [controllers/scalabilityController.ts] (class [ScalabilityMonitor]).

    Conventions of the embedding.
    - A JavaScript [number] is an exact rational ([Q]); values are compared
      with [==] ([Qeq]).  [NaN] and the infinities are outside the model,
      so a division agrees with the source only when the divisor is not
      zero.
    - Where the rounding of a double decides what the code answers, the
      arithmetic is that of [Double]: every result is rounded to the
      nearest binary64 value.  [TokenBucketDouble] is [consume] in that
      arithmetic; [TokenBucket] is the same code over the exact rationals.
    - [Date.now()] is an integer number of milliseconds ([Z]) and is passed
      to every operation that reads the clock.
    - A [Map<string, _>] is a [gmap string _]; the object stored under a key
      is written back by [consume], so aliasing inside one call is not
      observable and the store holds values.
    - [async] functions that never suspend on anything but their own result
      are functions from the state before to the result and the state after. *)

From Stdlib Require Import ZArith QArith Qround Qminmax Lqa Lia Ascii String.
From Stdlib Require Import Sorted.
From Stdlib Require Qcanon Floats Uint63.
From stdpp Require Import base option list strings gmap.

(** ** JavaScript arithmetic used by the sources *)

Module JS.

Definition Math_floor (x : Q) : Q := inject_Z (Qfloor x).
Definition Math_ceil (x : Q) : Q := inject_Z (Qceiling x).
(** [Math.round] rounds halves towards plus infinity. *)
Definition Math_round (x : Q) : Q := inject_Z (Qfloor (x + (1 # 2))).
Definition Math_min (x y : Q) : Q := Qmin x y.
Definition Math_max (x y : Q) : Q := Qmax x y.

(** [x > y] and [x >= y] on numbers. *)
Definition gt (x y : Q) : bool := negb (Qle_bool x y).
Definition ge (x y : Q) : bool := Qle_bool y x.

(** Truthiness of a number ([0] is falsy). *)
Definition truthy (x : Q) : bool := negb (Qeq_bool x 0).

End JS.

(** ** IEEE 754 binary64, the arithmetic of a [number]

    A finite double is a rational number.  [round] takes a rational to
    the nearest double, ties to the even significand: 53 bits of
    significand, and below [2^-1022] the fixed quantum [2^-1074] of the
    subnormal numbers.  Overflow to an infinity is not modelled; the
    values met here stay far below [2^1024]. *)

Module Double.

(** [2^k] as a fraction of two positive integers. *)
Definition pow2 (k : Z) : Z * Z :=
  if (0 <=? k)%Z then (2 ^ k, 1)%Z else (1, 2 ^ (- k))%Z.

(** The integer nearest to [n / d], for [d > 0]; a tie goes to the even
    one. *)
Definition nearestEven (n d : Z) : Z :=
  let q := (n / d)%Z in
  match (2 * (n mod d) ?= d)%Z with
  | Lt => q
  | Gt => (q + 1)%Z
  | Eq => if Z.even q then q else (q + 1)%Z
  end.

(** The binary exponent of [n / d], for [n, d > 0]: the [e] with
    [2^e <= n / d < 2^(e + 1)]. *)
Definition exponent (n d : Z) : Z :=
  let e := (Z.log2 n - Z.log2 d)%Z in
  let '(a, b) := pow2 e in
  if (a * d <=? n * b)%Z then e else (e - 1)%Z.

(** [x] is scaled by [2^k] so that its significand has 53 bits (or by
    [2^1074] when it is subnormal), rounded to an integer and scaled
    back. *)
Definition round (x : Q) : Q :=
  let x := Qred x in
  let n := Z.abs (Qnum x) in
  let d := Z.pos (Qden x) in
  if (n =? 0)%Z then 0
  else
    let k := Z.min (52 - exponent n d) 1074 in
    let '(a, b) := pow2 k in
    let m := nearestEven (n * a) (d * b) in
    let '(a', b') := pow2 (- k) in
    (Z.sgn (Qnum x) * m * a' # Z.to_pos b').

(** [x + y], [x - y], [x * y] and [x / y] on doubles: the exact result,
    rounded once. *)
Definition add (x y : Q) : Q := round (x + y).
Definition sub (x y : Q) : Q := round (x - y).
Definition mul (x y : Q) : Q := round (x * y).
Definition div (x y : Q) : Q := round (x / y).

End Double.

(** The primitive floats of the kernel are binary64 as well; [ofFloat]
    reads a finite one as a rational, so that [Double] can be compared
    with them. *)

Module PrimitiveDouble.
Import Floats.

Definition ofFloat (f : float) : option Q :=
  match Prim2SF f with
  | S754_zero _ => Some 0%Q
  | S754_finite s m e =>
      let '(a, b) := Double.pow2 e in
      Some ((if s then -1 else 1) * Z.pos m * a # Z.to_pos b)
  | _ => None
  end.

Definition agrees (f : float) (q : Q) : bool :=
  match ofFloat f with
  | Some p => Qeq_bool p q
  | None => false
  end.

(** An integer below [2^53] as a float. *)
Definition ofZ (z : Z) : float := of_uint63 (Uint63.of_Z z).

(** [ms / 1000 * rate] in the floats and in [Double]. *)
Definition sameProduct (ms rate : Z) : bool :=
  agrees (ofZ ms / 1000 * ofZ rate)%float
         (Double.mul (Double.div (inject_Z ms) 1000) (inject_Z rate)).

End PrimitiveDouble.

(** ** rateLimiter.ts *)

Module TokenBucket.
Import JS.

Record TokenBucketConfig := {
  capacity : Q;
  refillRate : Q;
  keyPrefix : option string
}.

Record TokenBucketState := {
  tokens : Q;
  lastRefill : Z
}.

Record RateLimitResult := {
  allowed : bool;
  remainingTokens : Q;
  retryAfterSeconds : option Q;
  resetTime : Q
}.

(** [Omit<RateLimitResult, 'allowed'>] *)
Record StatusResult := {
  status_remainingTokens : Q;
  status_retryAfterSeconds : option Q;
  status_resetTime : Q
}.

(** The two private fields of the class. *)
Record t := {
  config : TokenBucketConfig;
  storage : gmap string TokenBucketState
}.

(** [constructor(config)]: [{ keyPrefix: 'rate_limit', ...config }] and an
    empty map.  Nothing is validated. *)
Definition new (cfg : TokenBucketConfig) : t :=
  {| config := {| capacity := capacity cfg;
                  refillRate := refillRate cfg;
                  keyPrefix := match keyPrefix cfg with
                               | Some p => Some p
                               | None => Some "rate_limit"%string
                               end |};
     storage := ∅ |}.

(** [`${this.config.keyPrefix}:${key}`] *)
Definition bucketKey (tb : t) (key : string) : string :=
  (match keyPrefix (config tb) with
   | Some p => p
   | None => "undefined"
   end +:+ ":" +:+ key)%string.

(** [storage.get(bucketKey)], or the bucket a first access starts from. *)
Definition load (now : Z) (key : string) (tb : t) : TokenBucketState :=
  match storage tb !! bucketKey tb key with
  | Some b => b
  | None => {| tokens := capacity (config tb); lastRefill := now |}
  end.

(** [Math.floor(timeDelta * refillRate)] with
    [timeDelta = (now - lastRefill) / 1000]. *)
Definition tokensToAdd (tb : t) (now : Z) (b : TokenBucketState) : Q :=
  let timeDelta := (inject_Z (now - lastRefill b) / 1000)%Q in
  Math_floor (timeDelta * refillRate (config tb)).

(** Lines 64-74 of [consume]: the guarded refill. *)
Definition refill (tb : t) (now : Z) (b : TokenBucketState)
  : TokenBucketState :=
  if gt (tokensToAdd tb now b) 0
  then {| tokens := Math_min (capacity (config tb))
                             (tokens b + tokensToAdd tb now b);
          lastRefill := now |}
  else b.

(** Lines 81-84 of [consume]: one token is taken when there is one. *)
Definition spend (b : TokenBucketState) : TokenBucketState :=
  if ge (tokens b) 1
  then {| tokens := tokens b - 1; lastRefill := lastRefill b |}
  else b.

Definition consume (now : Z) (key : string) (tb : t)
  : RateLimitResult * t :=
  let cfg := config tb in
  let bucket := refill tb now (load now key tb) in
  let allowed := ge (tokens bucket) 1 in
  let bucket' := spend bucket in
  let retryAfterSeconds :=
    if allowed then None
    else Some (Math_ceil ((1 - tokens bucket') / refillRate cfg)) in
  let tokensNeeded := (capacity cfg - tokens bucket')%Q in
  let resetTime :=
    (inject_Z now + (tokensNeeded / refillRate cfg) * 1000)%Q in
  ({| allowed := allowed;
      remainingTokens := tokens bucket';
      retryAfterSeconds := retryAfterSeconds;
      resetTime := resetTime |},
   {| config := cfg;
      storage := <[bucketKey tb key := bucket']> (storage tb) |}).

(** [getStatus] recomputes the tokens in a local, without the guard of
    [consume] and without [storage.set]. *)
Definition getStatus (now : Z) (key : string) (tb : t)
  : StatusResult * t :=
  let cfg := config tb in
  let bucket := load now key tb in
  let currentTokens :=
    Math_min (capacity cfg) (tokens bucket + tokensToAdd tb now bucket) in
  let tokensNeeded := (capacity cfg - currentTokens)%Q in
  let resetTime :=
    (inject_Z now + (tokensNeeded / refillRate cfg) * 1000)%Q in
  ({| status_remainingTokens := currentTokens;
      status_retryAfterSeconds :=
        if negb (ge currentTokens 1)
        then Some (Math_ceil ((1 - currentTokens) / refillRate cfg))
        else None;
      status_resetTime := resetTime |},
   tb).

(** [reset(key?)]; an empty string is falsy and clears everything. *)
Definition reset (key : option string) (tb : t) : t :=
  match key with
  | Some k =>
      if String.eqb k "" then {| config := config tb; storage := ∅ |}
      else {| config := config tb;
              storage := delete (bucketKey tb k) (storage tb) |}
  | None => {| config := config tb; storage := ∅ |}
  end.

Definition getConfig (tb : t) : TokenBucketConfig := config tb.

(** *** Runs: calls interleaved with the passage of time *)

Inductive Op :=
| OpConsume (key : string)
| OpGetStatus (key : string)
| OpReset (key : option string)
| OpAdvance (ms : Z).

Record World := { clock : Z; limiter : t }.

Definition step (w : World) (o : Op) : World :=
  match o with
  | OpConsume k =>
      {| clock := clock w; limiter := snd (consume (clock w) k (limiter w)) |}
  | OpGetStatus k =>
      {| clock := clock w;
         limiter := snd (getStatus (clock w) k (limiter w)) |}
  | OpReset k => {| clock := clock w; limiter := reset k (limiter w) |}
  | OpAdvance ms => {| clock := clock w + ms; limiter := limiter w |}
  end.

Definition run (ops : list Op) (w : World) : World := foldl step w ops.

(** The worlds after each operation of a run, in order. *)
Fixpoint trace (ops : list Op) (w : World) : list World :=
  match ops with
  | [] => []
  | o :: ops' => step w o :: trace ops' (step w o)
  end.

Definition fresh (cfg : TokenBucketConfig) (t0 : Z) : World :=
  {| clock := t0; limiter := new cfg |}.

(** [n] calls of [consume(key)] at one instant; the [allowed] flags in
    call order and the bucket afterwards. *)
Fixpoint consumeMany (n : nat) (now : Z) (key : string) (tb : t)
  : list bool * t :=
  match n with
  | O => ([], tb)
  | S n' =>
      let '(r, tb') := consume now key tb in
      let '(rs, tb'') := consumeMany n' now key tb' in
      (allowed r :: rs, tb'')
  end.

(** The bounds of the data model on one bucket; a capacity below one
    token can never be spent, so such a bucket stays full. *)
Definition settled (cap : Q) (b : TokenBucketState) : Prop :=
  (0 <= tokens b <= cap)%Q /\ ((cap < 1)%Q -> (tokens b == cap)%Q).

Definition invariant (tb : t) : Prop :=
  map_Forall (fun _ b => settled (capacity (config tb)) b) (storage tb).

(** Runs in which the clock never goes back. *)
Definition forwardOnly (ops : list Op) : Prop :=
  Forall (fun o => match o with
                   | OpAdvance ms => (0 <= ms)%Z
                   | _ => True
                   end) ops.

(** No stored bucket was refilled in the future. *)
Definition timely (w : World) : Prop :=
  map_Forall (fun _ b => (lastRefill b <= clock w)%Z)
             (storage (limiter w)).

(** No stored bucket holds more than the capacity. *)
Definition capped (tb : t) : Prop :=
  map_Forall (fun _ b => (tokens b <= capacity (config tb))%Q) (storage tb).

End TokenBucket.

(** ** rateLimiter.ts, in double precision

    [consume] once more, with every [+], [-], [*] and [/] rounded as the
    source rounds it.  The clock and [lastRefill] are integers of
    milliseconds far below [2^53], so [now - bucket.lastRefill] is exact;
    [Math.floor], [Math.ceil] and [Math.min] are exact on doubles.  The
    capacity and the rate of a configuration are doubles themselves. *)

Module TokenBucketDouble.
Import JS TokenBucket.

(** [Math.floor(timeDelta * refillRate)] with
    [timeDelta = (now - lastRefill) / 1000]: the quotient is rounded,
    then the product, then the floor is taken. *)
Definition tokensToAdd (tb : t) (now : Z) (b : TokenBucketState) : Q :=
  let timeDelta := Double.div (inject_Z (now - lastRefill b)) 1000 in
  Math_floor (Double.mul timeDelta (refillRate (config tb))).

Definition refill (tb : t) (now : Z) (b : TokenBucketState)
  : TokenBucketState :=
  if gt (tokensToAdd tb now b) 0
  then {| tokens := Math_min (capacity (config tb))
                             (Double.add (tokens b) (tokensToAdd tb now b));
          lastRefill := now |}
  else b.

Definition spend (b : TokenBucketState) : TokenBucketState :=
  if ge (tokens b) 1
  then {| tokens := Double.sub (tokens b) 1; lastRefill := lastRefill b |}
  else b.

Definition consume (now : Z) (key : string) (tb : t)
  : RateLimitResult * t :=
  let cfg := config tb in
  let bucket := refill tb now (load now key tb) in
  let allowed := ge (tokens bucket) 1 in
  let bucket' := spend bucket in
  let retryAfterSeconds :=
    if allowed then None
    else Some (Math_ceil (Double.div (Double.sub 1 (tokens bucket'))
                                     (refillRate cfg))) in
  let tokensNeeded := Double.sub (capacity cfg) (tokens bucket') in
  let resetTime :=
    Double.add (inject_Z now)
               (Double.mul (Double.div tokensNeeded (refillRate cfg)) 1000) in
  ({| allowed := allowed;
      remainingTokens := tokens bucket';
      retryAfterSeconds := retryAfterSeconds;
      resetTime := resetTime |},
   {| config := cfg;
      storage := <[bucketKey tb key := bucket']> (storage tb) |}).

(** [n] calls of [consume(key)] at one instant. *)
Fixpoint consumeMany (n : nat) (now : Z) (key : string) (tb : t)
  : list bool * t :=
  match n with
  | O => ([], tb)
  | S n' =>
      let '(r, tb') := consume now key tb in
      let '(rs, tb'') := consumeMany n' now key tb' in
      (allowed r :: rs, tb'')
  end.

End TokenBucketDouble.

(** ** rateLimitMiddleware.ts *)

Module RateLimitMiddleware.
Import JS.

(** A thrown [Error] and its message. *)
Inductive exn := Error (message : string).

(** What [toString()], [toISOString()] and string literals put into a
    header or a JSON field. *)
Inductive Value :=
| VNumber (n : Q)
| VIsoDate (ms : Q)
| VString (s : string).

Record RateLimitInfo := {
  limit : Q;
  remaining : Q;
  reset : Q;
  retryAfter : option Q
}.

Record Request := {
  x_forwarded_for : option string;
  x_real_ip : option string;
  user_agent : option string;
  remoteAddress : option string;
  url : string;
  method : string;
  rateLimit : option RateLimitInfo
}.

(** The body of the 429 answer. *)
Record RejectionBody := {
  error : string;
  message : string;
  retry_after_seconds : Q;
  body_limit : Q;
  reset_time : Value
}.

Record Response := {
  headers : gmap string Value;
  statusCode : Z;
  body : option RejectionBody
}.

Record RateLimitConfig := {
  capacity : Q;
  refillRate : Q;
  keyPrefix : option string;
  keyGenerator : option (Request -> exn + string);
  skipFailedRequests : option bool;
  skipSuccessfulRequests : option bool;
  onLimitReached : option (Request -> Response -> exn + Response)
}.

Inductive LogLine :=
| Warn (text : string) (key : string)
| ErrorLog (text : string) (e : exn).

(** Everything one call of the middleware can read or change. *)
Record Ctx := {
  bucket : TokenBucket.t;
  req : Request;
  res : Response;
  nextCalls : nat;
  console : list LogLine
}.

(** Computations that change the context and may throw; what was changed
    before a throw stays changed. *)
Definition M (A : Type) : Type := Ctx -> (exn + A) * Ctx.

Definition ret {A} (a : A) : M A := fun c => (inr a, c).
Definition throw {A} (e : exn) : M A := fun c => (inl e, c).
Definition bind {A B} (m : M A) (k : A -> M B) : M B :=
  fun c => match m c with
           | (inr a, c') => k a c'
           | (inl e, c') => (inl e, c')
           end.
Definition tryCatch {A} (m : M A) (handler : exn -> M A) : M A :=
  fun c => match m c with
           | (inr a, c') => (inr a, c')
           | (inl e, c') => handler e c'
           end.
Definition lift {A} (r : exn + A) : M A := fun c => (r, c).
Definition gets {A} (f : Ctx -> A) : M A := fun c => (inr (f c), c).
Definition modify (f : Ctx -> Ctx) : M unit := fun c => (inr tt, f c).
Definition when (b : bool) (m : M unit) : M unit := if b then m else ret tt.

Declare Scope mw_scope.
Delimit Scope mw_scope with mw.
Notation "x <- m ;; k" := (bind m (fun x => k))
  (at level 100, m at next level, right associativity) : mw_scope.
Notation "m ;; k" := (bind m (fun _ => k))
  (at level 100, right associativity) : mw_scope.

(** [s.split(',')[0]] *)
Fixpoint firstSegment (s : string) : string :=
  match s with
  | EmptyString => EmptyString
  | String c s' =>
      if Ascii.eqb c ","%char then EmptyString else String c (firstSegment s')
  end.

(** [a || b] on possibly undefined strings: the empty string is falsy. *)
Definition orElse (a : option string) (b : option string) : option string :=
  match a with
  | Some s => if String.eqb s "" then b else Some s
  | None => b
  end.

(** The default key generator: forwarded address, real IP, peer address,
    ['unknown']. *)
Definition defaultKeyGenerator (r : Request) : exn + string :=
  let forwarded := x_forwarded_for r in
  let realIp := x_real_ip r in
  let clientIp :=
    orElse (orElse (orElse (firstSegment <$> forwarded) realIp)
                   (remoteAddress r))
           (Some "unknown"%string) in
  inr (default "unknown"%string clientIp).

Definition bucketConfig (cfg : RateLimitConfig)
  : TokenBucket.TokenBucketConfig :=
  {| TokenBucket.capacity := capacity cfg;
     TokenBucket.refillRate := refillRate cfg;
     TokenBucket.keyPrefix := keyPrefix cfg |}.

Definition setHeader (name : string) (v : Value) : M unit :=
  modify (fun c =>
    {| bucket := bucket c; req := req c;
       res := {| headers := <[name := v]> (headers (res c));
                 statusCode := statusCode (res c);
                 body := body (res c) |};
       nextCalls := nextCalls c; console := console c |}).

Definition setRateLimit (i : RateLimitInfo) : M unit :=
  modify (fun c =>
    {| bucket := bucket c;
       req := {| x_forwarded_for := x_forwarded_for (req c);
                 x_real_ip := x_real_ip (req c);
                 user_agent := user_agent (req c);
                 remoteAddress := remoteAddress (req c);
                 url := url (req c);
                 method := method (req c);
                 rateLimit := Some i |};
       res := res c; nextCalls := nextCalls c; console := console c |}).

(** [res.status(code)] *)
Definition setStatus (code : Z) : M unit :=
  modify (fun c =>
    {| bucket := bucket c; req := req c;
       res := {| headers := headers (res c);
                 statusCode := code;
                 body := body (res c) |};
       nextCalls := nextCalls c; console := console c |}).

(** [res.json(b)] *)
Definition json (b : RejectionBody) : M unit :=
  modify (fun c =>
    {| bucket := bucket c; req := req c;
       res := {| headers := headers (res c);
                 statusCode := statusCode (res c);
                 body := Some b |};
       nextCalls := nextCalls c; console := console c |}).

(** A [Date] holds a time within 8.64e15 ms of the epoch; [new Date(ms)]
    of anything else is an invalid date. *)
Definition validTime (ms : Q) : bool :=
  Qle_bool (- 8640000000000000) ms && Qle_bool ms 8640000000000000.

(** [new Date(ms).toISOString()] throws a [RangeError] on an invalid
    date. *)
Definition toISOString (ms : Q) : M Value :=
  if validTime ms then ret (VIsoDate ms)
  else throw (Error "Invalid time value").

Definition log (l : LogLine) : M unit :=
  modify (fun c =>
    {| bucket := bucket c; req := req c; res := res c;
       nextCalls := nextCalls c; console := console c ++ [l] |}).

(** [next()]: the request goes on to the downstream handler. *)
Definition next : M unit :=
  modify (fun c =>
    {| bucket := bucket c; req := req c; res := res c;
       nextCalls := S (nextCalls c); console := console c |}).

(** [config.onLimitReached(req, res)]; the hook may change the response. *)
Definition callHook (f : Request -> Response -> exn + Response) : M unit :=
  fun c => match f (req c) (res c) with
           | inr r' => (inr tt,
                        {| bucket := bucket c; req := req c; res := r';
                           nextCalls := nextCalls c; console := console c |})
           | inl e => (inl e, c)
           end.

Section Handler.

(** [bucket.consume], awaited by the handler: a rejected promise is a
    throw.  It only touches the bucket. *)
Variable consume :
  Z -> string -> TokenBucket.t
  -> (exn + TokenBucket.RateLimitResult) * TokenBucket.t.

Variable config : RateLimitConfig.

Definition awaitConsume (now : Z) (key : string)
  : M TokenBucket.RateLimitResult :=
  fun c => let '(r, b') := consume now key (bucket c) in
           (r, {| bucket := b'; req := req c; res := res c;
                  nextCalls := nextCalls c; console := console c |}).

(** The [async (req, res, next) => { ... }] returned by
    [createRateLimitMiddleware].  In [res.status(429).json({ ... })] the
    status is set before the object literal is evaluated, so a throwing
    [toISOString] leaves the status behind and no body. *)
Definition handler (now : Z) : M unit :=
  let keyGen := default defaultKeyGenerator (keyGenerator config) in
  tryCatch
    (r <- gets req ;;
     key <- lift (keyGen r) ;;
     result <- awaitConsume now key ;;
     setHeader "X-RateLimit-Limit" (VNumber (capacity config)) ;;
     setHeader "X-RateLimit-Remaining"
       (VNumber (Math_max 0 (TokenBucket.remainingTokens result))) ;;
     setHeader "X-RateLimit-Reset"
       (VNumber (Math_ceil (TokenBucket.resetTime result / 1000))) ;;
     setRateLimit
       {| limit := capacity config;
          remaining := Math_max 0 (TokenBucket.remainingTokens result);
          reset := TokenBucket.resetTime result;
          retryAfter := TokenBucket.retryAfterSeconds result |} ;;
     if negb (TokenBucket.allowed result) then
       (match TokenBucket.retryAfterSeconds result with
        | Some s => when (truthy s) (setHeader "Retry-After" (VNumber s))
        | None => ret tt
        end) ;;
       (match onLimitReached config with
        | Some f => callHook f
        | None => ret tt
        end) ;;
       log (Warn "Rate limit exceeded for key" key) ;;
       setStatus 429 ;;
       iso <- toISOString (TokenBucket.resetTime result) ;;
       json
         {| error := "Rate limit exceeded";
            message := "Too many requests, please try again later";
            retry_after_seconds :=
              match TokenBucket.retryAfterSeconds result with
              | Some s => if truthy s then s else 60
              | None => 60
              end;
            body_limit := capacity config;
            reset_time := iso |}
     else
       next)%mw
    (fun e => (log (ErrorLog "Rate limiter error:" e) ;; next)%mw).

End Handler.

(** The bucket of the source never rejects. *)
Definition bucketConsume (now : Z) (key : string) (tb : TokenBucket.t)
  : (exn + TokenBucket.RateLimitResult) * TokenBucket.t :=
  let '(r, tb') := TokenBucket.consume now key tb in (inr r, tb').

(** The closure [createRateLimitMiddleware] returns: the configuration
    and the bucket it captured. *)
Record Limiter := {
  limiterConfig : RateLimitConfig;
  limiterBucket : TokenBucket.t
}.

(** [createRateLimitMiddleware(config)] has no [throw]. *)
Definition createRateLimitMiddleware (cfg : RateLimitConfig)
  : exn + Limiter :=
  inr {| limiterConfig := cfg;
         limiterBucket := TokenBucket.new (bucketConfig cfg) |}.

(** One request through a limiter. *)
Definition serve (l : Limiter) (now : Z) : M unit :=
  handler bucketConsume (limiterConfig l) now.

(** [process.env], with the numbers [parseInt] and [parseFloat] read from
    the variables that are set and not empty. *)
Record Env := {
  RATE_LIMIT_CAPACITY : option Q;
  RATE_LIMIT_REFILL_RATE : option Q;
  RATE_LIMIT_KEY_PREFIX : option string
}.

(** [Partial<RateLimitConfig>] *)
Record Overrides := {
  o_capacity : option Q;
  o_refillRate : option Q;
  o_keyPrefix : option string;
  o_keyGenerator : option (Request -> exn + string);
  o_skipFailedRequests : option bool;
  o_skipSuccessfulRequests : option bool;
  o_onLimitReached : option (Request -> Response -> exn + Response)
}.

Definition noOverrides : Overrides :=
  {| o_capacity := None; o_refillRate := None; o_keyPrefix := None;
     o_keyGenerator := None; o_skipFailedRequests := None;
     o_skipSuccessfulRequests := None; o_onLimitReached := None |}.

(** The object literal of [createConfiguredRateLimiter]: defaults from
    the environment, then [...overrides]. *)
Definition configured (env : Env) (o : Overrides) : RateLimitConfig :=
  {| capacity := default (default 100%Q (RATE_LIMIT_CAPACITY env))
                         (o_capacity o);
     refillRate := default (default (167 # 100) (RATE_LIMIT_REFILL_RATE env))
                           (o_refillRate o);
     keyPrefix :=
       match o_keyPrefix o with
       | Some p => Some p
       | None => orElse (RATE_LIMIT_KEY_PREFIX env)
                        (Some "api_rate_limit"%string)
       end;
     keyGenerator := o_keyGenerator o;
     skipFailedRequests := o_skipFailedRequests o;
     skipSuccessfulRequests := o_skipSuccessfulRequests o;
     onLimitReached := o_onLimitReached o |}.

Definition createConfiguredRateLimiter (env : Env) (o : Overrides)
  : exn + Limiter :=
  let config := configured env o in
  if Qle_bool (capacity config) 0 || Qle_bool (refillRate config) 0
  then inl (Error
         "Rate limit capacity and refill rate must be positive numbers")
  else createRateLimitMiddleware config.

Inductive Profile := auth | api | read | write.

(** [rateLimitProfiles] *)
Definition rateLimitProfiles (p : Profile) : Q * Q :=
  match p with
  | auth => (5, 83 # 1000)%Q
  | api => (100, 167 # 100)%Q
  | read => (200, 333 # 100)%Q
  | write => (50, 83 # 100)%Q
  end.

Definition createProfiledRateLimiter
    (env : Env) (p : Profile) (o : Overrides) : exn + Limiter :=
  let '(c, r) := rateLimitProfiles p in
  createConfiguredRateLimiter env
    {| o_capacity := Some (default c (o_capacity o));
       o_refillRate := Some (default r (o_refillRate o));
       o_keyPrefix := o_keyPrefix o;
       o_keyGenerator := o_keyGenerator o;
       o_skipFailedRequests := o_skipFailedRequests o;
       o_skipSuccessfulRequests := o_skipSuccessfulRequests o;
       o_onLimitReached := o_onLimitReached o |}.

Definition failed {A} (r : exn + A) : Prop :=
  match r with inl _ => True | inr _ => False end.

End RateLimitMiddleware.

(** ** scalabilityController.ts *)

Module ScalabilityMonitor.
Import JS.

Record DatabaseMetrics := {
  databaseSize : Q;
  pageCount : Q;
  pageSize : Q;
  tableCount : Q;
  indexCount : Q;
  avgQueryTime : Q
}.

Record ResponseTime := { avg : Q; p95 : Q; p99 : Q }.
Record Throughput := { requestsPerSecond : Q; requestsPerMinute : Q }.
Record Errors := { rate : Q; count : Q }.

Record PerformanceMetrics := {
  responseTime : ResponseTime;
  throughput : Throughput;
  errors : Errors
}.

Record Memory := { used : Q; free : Q; total : Q; usage : Q }.

Record SystemMetrics := {
  memory : Memory;
  cpuUsage : Q;
  uptime : Q
}.

Record Users := {
  users_activeConnections : Q;
  users_totalRequests : Q;
  uniqueUsers : Q
}.

Record RateLimiting := {
  totalRequests : Q;
  allowedRequests : Q;
  blockedRequests : Q;
  blockRate : Q;
  activeClients : Q
}.

Record ScalabilityMetrics := {
  users : Users;
  database : DatabaseMetrics;
  performance : PerformanceMetrics;
  system : SystemMetrics;
  rateLimiting : RateLimiting
}.

(** An element of [requestMetrics]. *)
Record RequestMetric := {
  timestamp : Z;
  rm_responseTime : Q;
  status : Z
}.

(** The private fields of the class. *)
Record t := {
  requestMetrics : list RequestMetric;
  startTime : Z;
  activeConnections : gset string
}.

Definition new (now : Z) : t :=
  {| requestMetrics := []; startTime := now; activeConnections := ∅ |}.

(** [Array.prototype.slice(start)]: a negative [start] counts from the
    end, and both ends are clamped to the array. *)
Definition slice {A} (start : Z) (l : list A) : list A :=
  let len := Z.of_nat (length l) in
  let k := if (start <? 0)%Z then Z.max (len + start) 0
           else Z.min start len in
  drop (Z.to_nat k) l.

(** [cleanupOldConnections]: the set is cleared whenever the length of
    the buffer is a multiple of 1000. *)
Definition cleanupOldConnections (m : t) : t :=
  if (Z.of_nat (length (requestMetrics m)) mod 1000 =? 0)%Z
  then {| requestMetrics := requestMetrics m;
          startTime := startTime m;
          activeConnections := ∅ |}
  else m.

Definition recordRequest
    (now : Z) (responseTime : Q) (statusCode : Z) (clientId : option string)
    (m : t) : t :=
  let pushed :=
    requestMetrics m ++
    [{| timestamp := now; rm_responseTime := responseTime;
        status := statusCode |}] in
  let connections :=
    match clientId with
    | Some c => if String.eqb c "" then activeConnections m
                else {[ c ]} ∪ activeConnections m
    | None => activeConnections m
    end in
  let kept :=
    if (Z.of_nat (length pushed) >? 10000)%Z
    then slice (-5000) pushed
    else pushed in
  cleanupOldConnections
    {| requestMetrics := kept;
       startTime := startTime m;
       activeConnections := connections |}.

(** [a / b], observed: [None] stands for a division by zero. *)
Definition divide (a b : Q) : option Q :=
  if Qeq_bool b 0 then None else Some (a / b)%Q.

(** [sort((a, b) => a - b)]: a stable ascending sort. *)
Fixpoint insertSorted (x : Q) (l : list Q) : list Q :=
  match l with
  | [] => [x]
  | y :: l' =>
      if Qle_bool y x then y :: insertSorted x l' else x :: y :: l'
  end.

Definition sortAscending (l : list Q) : list Q :=
  foldl (fun acc x => insertSorted x acc) [] l.

Definition sum (l : list Q) : Q := foldl Qplus 0%Q l.

(** [xs[i] || 0] *)
Definition at_or_zero (xs : list Q) (i : Q) : Q :=
  default 0%Q (xs !! Z.to_nat (Qfloor i)).

Definition size {A} (l : list A) : Q := inject_Z (Z.of_nat (length l)).

Definition zeroPerformance : PerformanceMetrics :=
  {| responseTime := {| avg := 0; p95 := 0; p99 := 0 |};
     throughput := {| requestsPerSecond := 0; requestsPerMinute := 0 |};
     errors := {| rate := 0; count := 0 |} |}.

(** [Math.round(x * 100) / 100] *)
Definition round2 (x : Q) : option Q := divide (Math_round (x * 100)) 100.

(** [getPerformanceMetrics]; every division goes through [divide], so the
    result is [None] exactly when some divisor was zero. *)
Definition getPerformanceMetrics (now : Z) (m : t)
  : option PerformanceMetrics :=
  let oneMinuteAgo := (now - 60 * 1000)%Z in
  let recentRequests :=
    filter (fun r => (oneMinuteAgo < timestamp r)%Z) (requestMetrics m) in
  if (Z.of_nat (length recentRequests) =? 0)%Z then Some zeroPerformance
  else
    let responseTimes := sortAscending (rm_responseTime <$> recentRequests) in
    avg0 ← divide (sum responseTimes) (size responseTimes);
    let p95Index := Math_floor (size responseTimes * (95 # 100)) in
    let p99Index := Math_floor (size responseTimes * (99 # 100)) in
    let requestsPerMinute := size recentRequests in
    requestsPerSecond ← divide requestsPerMinute 60;
    let errorRequests :=
      filter (fun r => (400 <= status r)%Z) recentRequests in
    ratio ← divide (size errorRequests) (size recentRequests);
    let errorRate := (ratio * 100)%Q in
    avg' ← round2 avg0;
    p95' ← round2 (at_or_zero responseTimes p95Index);
    p99' ← round2 (at_or_zero responseTimes p99Index);
    rps' ← round2 requestsPerSecond;
    rate' ← round2 errorRate;
    Some {| responseTime := {| avg := avg'; p95 := p95'; p99 := p99' |};
            throughput := {| requestsPerSecond := rps';
                             requestsPerMinute := requestsPerMinute |};
            errors := {| rate := rate'; count := size errorRequests |} |}.

Inductive Status := green | yellow | red.

Record Assessment := {
  a_status : Status;
  score : Z;
  recommendations : list string;
  alerts : list string
}.

(** The three locals [score], [recommendations] and [alerts]. *)
Record Acc := {
  acc_score : Z;
  acc_recommendations : list string;
  acc_alerts : list string
}.

Definition deduct (n : Z) (alert : option string) (recommendation : string)
    (a : Acc) : Acc :=
  {| acc_score := acc_score a - n;
     acc_recommendations := acc_recommendations a ++ [recommendation];
     acc_alerts := match alert with
                   | Some x => acc_alerts a ++ [x]
                   | None => acc_alerts a
                   end |}.

Definition assessDatabase (m : ScalabilityMetrics) (a : Acc) : Acc :=
  let dbSizeGB := (databaseSize (database m) / (1024 * 1024 * 1024))%Q in
  if gt dbSizeGB 5 then
    deduct 30 (Some "Database size exceeds 5GB - urgent migration needed")
           "Migrate to PostgreSQL immediately" a
  else if gt dbSizeGB 1 then
    deduct 15 (Some "Database size exceeds 1GB - plan migration")
           "Plan PostgreSQL migration within 2-3 months" a
  else a.

Definition assessPerformance (m : ScalabilityMetrics) (a : Acc) : Acc :=
  let x := p95 (responseTime (performance m)) in
  if gt x 500 then
    deduct 25 (Some "95th percentile response time > 500ms")
           "Optimize database queries and add caching" a
  else if gt x 200 then
    deduct 10 None "Consider query optimization and indexing" a
  else a.

Definition assessThroughput (m : ScalabilityMetrics) (a : Acc) : Acc :=
  let x := requestsPerSecond (throughput (performance m)) in
  if gt x 500 then
    deduct 20
           (Some "High request rate detected - SQLite limits approaching")
           "Implement read replicas or migrate to PostgreSQL" a
  else if gt x 100 then
    deduct 5 None "Monitor request patterns and consider caching" a
  else a.

Definition assessErrors (m : ScalabilityMetrics) (a : Acc) : Acc :=
  let x := rate (errors (performance m)) in
  if gt x 5 then
    deduct 25 (Some "High error rate detected")
           "Investigate error causes and add monitoring" a
  else if gt x 1 then
    deduct 10 None "Monitor error patterns" a
  else a.

Definition assessMemory (m : ScalabilityMetrics) (a : Acc) : Acc :=
  let x := usage (memory (system m)) in
  if gt x 90 then
    deduct 20 (Some "High memory usage - scale vertically")
           "Increase server memory or optimize application" a
  else if gt x 80 then
    deduct 5 None "Monitor memory trends" a
  else a.

(** [getScalabilityAssessment], after the metrics have been gathered. *)
Definition getScalabilityAssessment (m : ScalabilityMetrics) : Assessment :=
  let a0 := {| acc_score := 100; acc_recommendations := [];
               acc_alerts := [] |} in
  let a := assessMemory m
             (assessErrors m
                (assessThroughput m
                   (assessPerformance m (assessDatabase m a0)))) in
  let score := acc_score a in
  let status :=
    if (80 <=? score)%Z then green
    else if (60 <=? score)%Z then yellow
    else red in
  {| a_status := status;
     score := Z.max 0 score;
     recommendations := acc_recommendations a;
     alerts := acc_alerts a |}.

(** *** The assessment as the specification words it

    Every rule whose threshold is exceeded fires, the two rules of one
    metric included; the score is clamped to [[0, 100]] and the status is
    read off the score. *)

Definition rule (x threshold : Q) (deduction : Z) : Z :=
  if gt x threshold then deduction else 0%Z.

Definition statedScore (m : ScalabilityMetrics) : Z :=
  let dbSizeGB := (databaseSize (database m) / (1024 * 1024 * 1024))%Q in
  let p := p95 (responseTime (performance m)) in
  let rps := requestsPerSecond (throughput (performance m)) in
  let err := rate (errors (performance m)) in
  let mem := usage (memory (system m)) in
  let s := (100
            - rule dbSizeGB 1 15 - rule dbSizeGB 5 30
            - rule p 200 10 - rule p 500 25
            - rule rps 100 5 - rule rps 500 20
            - rule err 1 10 - rule err 5 25
            - rule mem 80 5 - rule mem 90 20)%Z in
  Z.min 100 (Z.max 0 s).

Definition statusOf (s : Z) : Status :=
  if (80 <=? s)%Z then green else if (60 <=? s)%Z then yellow else red.

(** The deduction of one metric in the source: the higher tier replaces
    the lower one. *)
Definition tier (x low high : Q) (small large : Z) : Z :=
  if gt x high then large else if gt x low then small else 0%Z.

(** A snapshot in which only the five assessed gauges are not zero. *)
Definition snapshot (dbBytes p95ms rps errorRate memoryUsage : Q)
  : ScalabilityMetrics :=
  {| users := {| users_activeConnections := 0; users_totalRequests := 0;
                 uniqueUsers := 0 |};
     database := {| databaseSize := dbBytes; pageCount := 0; pageSize := 0;
                    tableCount := 0; indexCount := 0; avgQueryTime := 0 |};
     performance :=
       {| responseTime := {| avg := 0; p95 := p95ms; p99 := 0 |};
          throughput := {| requestsPerSecond := rps;
                           requestsPerMinute := 0 |};
          errors := {| rate := errorRate; count := 0 |} |};
     system := {| memory := {| used := 0; free := 0; total := 0;
                               usage := memoryUsage |};
                  cpuUsage := 0; uptime := 0 |};
     rateLimiting := {| totalRequests := 0; allowedRequests := 0;
                        blockedRequests := 0; blockRate := 0;
                        activeClients := 0 |} |}.

(** [reset()] *)
Definition reset (now : Z) (m : t) : t :=
  {| requestMetrics := []; activeConnections := ∅; startTime := now |}.

(** Calls on the monitor, each with the time [Date.now()] returns in it. *)
Inductive Call :=
| CallRecordRequest (now : Z) (responseTime : Q) (statusCode : Z)
                    (clientId : option string)
| CallReset (now : Z).

Definition call (m : t) (c : Call) : t :=
  match c with
  | CallRecordRequest now rt sc cid => recordRequest now rt sc cid m
  | CallReset now => reset now m
  end.

Definition calls (cs : list Call) (m : t) : t := foldl call m cs.

(** The records [getPerformanceMetrics] looks at. *)
Definition window (now : Z) (m : t) : list RequestMetric :=
  filter (fun r => (now - 60 * 1000 < timestamp r)%Z) (requestMetrics m).

End ScalabilityMonitor.

(** ** metricsController.ts *)

Module MetricsCollector.

(** [requestsPerEndpoint] and [rateLimitViolationsPerKey] are objects used
    as maps; a key that names a property of [Object.prototype] is outside
    the model.  The endpoint keys of [metricsMiddleware] contain a space
    and never are such names. *)
Record MetricsData := {
  totalRequests : Z;
  rateLimitedRequests : Z;
  requestsPerEndpoint : gmap string Z;
  rateLimitViolationsPerKey : gmap string Z;
  lastReset : Z
}.

Definition new (now : Z) : MetricsData :=
  {| totalRequests := 0; rateLimitedRequests := 0;
     requestsPerEndpoint := ∅; rateLimitViolationsPerKey := ∅;
     lastReset := now |}.

Definition incrementTotalRequests (m : MetricsData) : MetricsData :=
  {| totalRequests := totalRequests m + 1;
     rateLimitedRequests := rateLimitedRequests m;
     requestsPerEndpoint := requestsPerEndpoint m;
     rateLimitViolationsPerKey := rateLimitViolationsPerKey m;
     lastReset := lastReset m |}.

Definition incrementRateLimitedRequests (m : MetricsData) : MetricsData :=
  {| totalRequests := totalRequests m;
     rateLimitedRequests := rateLimitedRequests m + 1;
     requestsPerEndpoint := requestsPerEndpoint m;
     rateLimitViolationsPerKey := rateLimitViolationsPerKey m;
     lastReset := lastReset m |}.

(** [(counts[key] || 0) + 1] *)
Definition bump (key : string) (counts : gmap string Z) : gmap string Z :=
  <[key := (default 0 (counts !! key) + 1)%Z]> counts.

Definition incrementEndpointRequest (endpoint : string) (m : MetricsData)
  : MetricsData :=
  {| totalRequests := totalRequests m;
     rateLimitedRequests := rateLimitedRequests m;
     requestsPerEndpoint := bump endpoint (requestsPerEndpoint m);
     rateLimitViolationsPerKey := rateLimitViolationsPerKey m;
     lastReset := lastReset m |}.

Definition incrementRateLimitViolation (key : string) (m : MetricsData)
  : MetricsData :=
  {| totalRequests := totalRequests m;
     rateLimitedRequests := rateLimitedRequests m;
     requestsPerEndpoint := requestsPerEndpoint m;
     rateLimitViolationsPerKey := bump key (rateLimitViolationsPerKey m);
     lastReset := lastReset m |}.

Definition reset (now : Z) (m : MetricsData) : MetricsData := new now.

(** The first two statements of [metricsMiddleware]; [endpoint] is
    [`${req.method} ${req.route?.path || req.path}`]. *)
Definition metricsMiddleware (endpoint : string) (m : MetricsData)
  : MetricsData :=
  incrementEndpointRequest endpoint (incrementTotalRequests m).

(** The [res.status] that [metricsMiddleware] installs, as far as the
    collector goes. *)
Definition onStatus (code : Z) (clientKey : string) (m : MetricsData)
  : MetricsData :=
  if (code =? 429)%Z
  then incrementRateLimitViolation clientKey (incrementRateLimitedRequests m)
  else m.

(** What happens to the collector while the server runs. *)
Inductive Event :=
| Arrives (endpoint : string)
| Status (code : Z) (clientKey : string)
| Reset (now : Z).

Definition handle (m : MetricsData) (e : Event) : MetricsData :=
  match e with
  | Arrives endpoint => metricsMiddleware endpoint m
  | Status code clientKey => onStatus code clientKey m
  | Reset now => reset now m
  end.

Definition sumOfCounts (counts : gmap string Z) : Z :=
  map_fold (fun _ v acc => (v + acc)%Z) 0%Z counts.

(** [rateLimitRatio] of [getPrometheusMetrics] and [healthCheck], with the
    division observed. *)
Definition rateLimitRatio (m : MetricsData) : option Q :=
  if (0 <? totalRequests m)%Z
  then ScalabilityMonitor.divide (inject_Z (rateLimitedRequests m))
                                 (inject_Z (totalRequests m))
  else Some 0%Q.

(** The class [[a-zA-Z0-9_]]. *)
Definition isWordChar (c : ascii) : bool :=
  let n := nat_of_ascii c in
  ((97 <=? n) && (n <=? 122) || (65 <=? n) && (n <=? 90)
   || (48 <=? n) && (n <=? 57) || (n =? 95))%nat.

(** [endpoint.replace(/[^a-zA-Z0-9_]/g, '_')]; a string is the sequence
    of its code units, and one above 255 is replaced like any other that
    is outside the class. *)
Fixpoint sanitize (endpoint : string) : string :=
  match endpoint with
  | EmptyString => EmptyString
  | String c rest =>
      String (if isWordChar c then c else "_"%char) (sanitize rest)
  end.

Fixpoint allWordChars (s : string) : bool :=
  match s with
  | EmptyString => true
  | String c rest => isWordChar c && allWordChars rest
  end.

End MetricsCollector.

(** ** problem4/index.ts: the sum of 1 .. n, four ways

    The argument is an integer; [n * (n + 1)] is even, so the division by
    two is exact.  The integers are those of [Z]: they are what the
    source computes as long as [n * (n + 1)] is a double, which it is for
    [|n| <= 2^27] (an even number below [2^54]); the theorems about
    returned sums keep to that range. *)

Module SumToN.

Definition MAX_SAFE_INTEGER : Z := 9007199254740991.

Inductive Outcome :=
| Returns (v : Z)
| Throws (message : string).

(** [n > 0 && (n * (n + 1)) / 2 > Number.MAX_SAFE_INTEGER] *)
Definition exceeds (n : Z) : bool :=
  ((0 <? n) && (MAX_SAFE_INTEGER <? n * (n + 1) / 2))%Z.

Definition tooLarge : Outcome :=
  Throws "Result exceeds Number.MAX_SAFE_INTEGER".

(** [for (let i = 1; i <= n; i++) sum += i] *)
Definition sumToNWithLoop (n : Z) : Outcome :=
  if exceeds n then tooLarge
  else Returns (foldl (fun sum i => (sum + i)%Z) 0%Z (seqZ 1 n)).

Definition sumToNWithFormula (n : Z) : Outcome :=
  if exceeds n then tooLarge else Returns (n * (n + 1) / 2)%Z.

(** The recursion ends at [n === 0] only; [depth] is the number of nested
    calls the stack has room for, and [None] is running out of it. *)
Fixpoint sumToNWithRecursion (depth : nat) (n : Z) : option Outcome :=
  match depth with
  | O => None
  | S depth' =>
      if exceeds n then Some tooLarge
      else if (n =? 0)%Z then Some (Returns 0)
      else match sumToNWithRecursion depth' (n - 1) with
           | Some (Returns r) => Some (Returns (n + r))
           | other => other
           end
  end.

(** The module-level [memo] is passed in and out. *)
Fixpoint sumToNMemoRecursion (depth : nat) (n : Z) (memo : gmap Z Z)
  : option (Outcome * gmap Z Z) :=
  match depth with
  | O => None
  | S depth' =>
      if exceeds n then Some (tooLarge, memo)
      else if (n <=? 0)%Z then Some (Returns 0, memo)
      else match memo !! n with
           | Some v => Some (Returns v, memo)
           | None =>
               match sumToNMemoRecursion depth' (n - 1) memo with
               | Some (Returns r, memo') =>
                   Some (Returns (n + r), <[n := (n + r)%Z]> memo')
               | other => other
               end
           end
  end.

(** Every entry of the memo is the sum it stands for. *)
Definition memoSound (memo : gmap Z Z) : Prop :=
  map_Forall (fun k v => (0 < k)%Z /\ v = (k * (k + 1) / 2)%Z) memo.

End SumToN.

(** * Properties *)

(** ** Arithmetic of the embedding *)

Module JSFacts.
Import JS.

Lemma gt_true (x y : Q) : gt x y = true <-> (y < x)%Q.
Proof.
  unfold gt. rewrite negb_true_iff, <- not_true_iff_false, Qle_bool_iff.
  split; [apply Qnot_le_lt | apply Qlt_not_le].
Qed.

Lemma gt_false (x y : Q) : gt x y = false <-> (x <= y)%Q.
Proof. unfold gt. rewrite negb_false_iff. apply Qle_bool_iff. Qed.

Lemma ge_true (x y : Q) : ge x y = true <-> (y <= x)%Q.
Proof. apply Qle_bool_iff. Qed.

Lemma ge_false (x y : Q) : ge x y = false <-> (x < y)%Q.
Proof.
  unfold ge. rewrite <- not_true_iff_false, Qle_bool_iff.
  split; [apply Qnot_le_lt | apply Qlt_not_le].
Qed.

Lemma ge_proper (x x' y : Q) : (x == x')%Q -> ge x y = ge x' y.
Proof.
  intros E. destruct (ge x' y) eqn:G.
  - apply ge_true. apply ge_true in G. lra.
  - apply ge_false. apply ge_false in G. lra.
Qed.

Lemma gt_proper (x x' y : Q) : (x == x')%Q -> gt x y = gt x' y.
Proof.
  intros E. destruct (gt x' y) eqn:G.
  - apply gt_true. apply gt_true in G. lra.
  - apply gt_false. apply gt_false in G. lra.
Qed.

(** A positive whole number is at least one. *)
Lemma floor_pos_ge_1 (x : Q) :
  (0 < Math_floor x)%Q -> (1 <= Math_floor x)%Q.
Proof.
  unfold Math_floor. intros H.
  change 0%Q with (inject_Z 0) in H. rewrite <- Zlt_Qlt in H.
  change 1%Q with (inject_Z 1). rewrite <- Zle_Qle. lia.
Qed.

Lemma floor_nonneg (x : Q) : (0 <= x)%Q -> (0 <= Math_floor x)%Q.
Proof.
  intros H. unfold Math_floor.
  change 0%Q with (inject_Z 0). rewrite <- Zle_Qle.
  change 0%Z with (Qfloor 0). now apply Qfloor_resp_le.
Qed.

Lemma min_cases (x y : Q) :
  ((x <= y)%Q /\ (Math_min x y == x)%Q) \/
  ((y <= x)%Q /\ (Math_min x y == y)%Q).
Proof.
  unfold Math_min.
  destruct (Q.min_spec x y) as [[H E] | [H E]]; [left | right];
    split; try exact E; lra.
Qed.

End JSFacts.

(** ** Double precision *)

Module DoubleFacts.
Import Double.

(** Equal rationals round to the same double. *)
Lemma round_proper x y : (x == y)%Q -> round x = round y.
Proof. intros E. unfold round. now rewrite (Qred_complete _ _ E). Qed.

Lemma Qred_inject_Z z : Qred (inject_Z z) = inject_Z z.
Proof. apply Qcanon.Qred_identity. cbn. apply Z.gcd_1_r. Qed.

Lemma nearestEven_1 n : nearestEven n 1 = n.
Proof. unfold nearestEven. now rewrite Z.mod_1_r, Z.div_1_r. Qed.

(** An integer below [2^53] is a double. *)
Lemma round_inject_Z z :
  (Z.abs z < 2 ^ 53)%Z -> (round (inject_Z z) == inject_Z z)%Q.
Proof.
  intros Hz. unfold round. rewrite Qred_inject_Z. cbn [Qnum Qden inject_Z].
  destruct (Z.eqb_spec (Z.abs z) 0) as [E|E].
  - replace z with 0%Z by lia. reflexivity.
  - assert (Hpos : (0 < Z.abs z)%Z) by lia.
    assert (Hlog : (0 <= Z.log2 (Z.abs z) < 53)%Z).
    { split; [apply Z.log2_nonneg|]. apply Z.log2_lt_pow2; lia. }
    assert (Hexp : exponent (Z.abs z) 1 = Z.log2 (Z.abs z)).
    { unfold exponent. change (Z.log2 1) with 0%Z. rewrite Z.sub_0_r.
      unfold pow2. destruct (Z.leb_spec 0 (Z.log2 (Z.abs z))); [|lia].
      destruct (Z.leb_spec (2 ^ Z.log2 (Z.abs z) * 1) (Z.abs z * 1));
        [reflexivity|].
      pose proof (Z.log2_spec _ Hpos). lia. }
    rewrite Hexp.
    set (k := (52 - Z.log2 (Z.abs z))%Z).
    assert (Hk : (0 <= k <= 52)%Z) by (unfold k; lia).
    clearbody k.
    rewrite Z.min_l by lia.
    unfold pow2 at 1. destruct (Z.leb_spec 0 k); [|lia].
    rewrite Z.mul_1_r, nearestEven_1.
    assert (H2 : (0 < 2 ^ k)%Z) by (apply Z.pow_pos_nonneg; lia).
    assert (Hs : (Z.sgn z * Z.abs z = z)%Z) by (destruct z; reflexivity).
    unfold pow2. destruct (Z.leb_spec 0 (- k)).
    + assert (k = 0%Z) by lia. subst k.
      unfold Qeq. cbn. rewrite !Z.mul_1_r. exact Hs.
    + unfold Qeq. cbn [Qnum Qden inject_Z]. rewrite Z.opp_involutive.
      rewrite Z2Pos.id by lia.
      rewrite !Z.mul_1_r, Z.mul_assoc, Hs. reflexivity.
Qed.

Lemma round_whole x z :
  (x == inject_Z z)%Q -> (Z.abs z < 2 ^ 53)%Z -> (round x == inject_Z z)%Q.
Proof.
  intros E Hz. rewrite (round_proper _ _ E). now apply round_inject_Z.
Qed.

(** Sums, differences, products and exact quotients of integers are
    exact as long as the result is below [2^53]. *)
Lemma add_whole x y a b :
  (x == inject_Z a)%Q -> (y == inject_Z b)%Q -> (Z.abs (a + b) < 2 ^ 53)%Z ->
  (add x y == inject_Z (a + b))%Q.
Proof.
  intros Hx Hy Hb. apply round_whole; [|exact Hb].
  rewrite Hx, Hy, inject_Z_plus. reflexivity.
Qed.

Lemma sub_whole x y a b :
  (x == inject_Z a)%Q -> (y == inject_Z b)%Q -> (Z.abs (a - b) < 2 ^ 53)%Z ->
  (sub x y == inject_Z (a - b))%Q.
Proof.
  intros Hx Hy Hb. apply round_whole; [|exact Hb].
  rewrite Hx, Hy. unfold Z.sub. rewrite inject_Z_plus, inject_Z_opp.
  reflexivity.
Qed.

Lemma mul_whole x y a b :
  (x == inject_Z a)%Q -> (y == inject_Z b)%Q -> (Z.abs (a * b) < 2 ^ 53)%Z ->
  (mul x y == inject_Z (a * b))%Q.
Proof.
  intros Hx Hy Hb. apply round_whole; [|exact Hb].
  rewrite Hx, Hy, inject_Z_mult. reflexivity.
Qed.

Lemma div_whole x y q d :
  (x == inject_Z (q * d))%Q -> (y == inject_Z d)%Q -> d <> 0%Z ->
  (Z.abs q < 2 ^ 53)%Z ->
  (div x y == inject_Z q)%Q.
Proof.
  intros Hx Hy Hd Hb. apply round_whole; [|exact Hb].
  assert (N : ~ (inject_Z d == 0)%Q).
  { unfold Qeq. cbn. lia. }
  rewrite Hx, Hy, inject_Z_mult. field. exact N.
Qed.

(** *** The rounding error *)

Lemma pow2_pos k : (0 < fst (pow2 k) /\ 0 < snd (pow2 k))%Z.
Proof.
  unfold pow2. destruct (Z.leb_spec 0 k); cbn; split; try lia;
    apply Z.pow_pos_nonneg; lia.
Qed.

Lemma pow2_opp k : pow2 (- k) = (snd (pow2 k), fst (pow2 k)).
Proof.
  unfold pow2.
  destruct (Z.leb_spec 0 k), (Z.leb_spec 0 (- k)); cbn; try lia.
  - replace k with 0%Z by lia. reflexivity.
  - now rewrite Z.opp_involutive.
  - reflexivity.
Qed.

(** [2^e * 2^(52 - e) = 2^52], on the fractions. *)
Lemma pow2_52 e :
  (fst (pow2 e) * fst (pow2 (52 - e))
   = 2 ^ 52 * (snd (pow2 e) * snd (pow2 (52 - e))))%Z.
Proof.
  unfold pow2.
  destruct (Z.leb_spec 0 e), (Z.leb_spec 0 (52 - e)); cbn [fst snd];
    rewrite ?Z.mul_1_r, ?Z.mul_1_l; try lia.
  all: rewrite <- Z.pow_add_r by lia.
  all: try (f_equal; lia).
Qed.

(** [2^(exponent n d) <= n / d]. *)
Lemma exponent_le n d :
  (0 < n)%Z -> (0 < d)%Z ->
  (fst (pow2 (exponent n d)) * d <= n * snd (pow2 (exponent n d)))%Z.
Proof.
  intros Hn Hd. unfold exponent.
  set (e := (Z.log2 n - Z.log2 d)%Z).
  destruct (pow2 e) as [a b] eqn:P.
  destruct (Z.leb_spec (a * d) (n * b)) as [H|H].
  - now rewrite P.
  - pose proof (Z.log2_spec n Hn) as [Ln _].
    pose proof (Z.log2_spec d Hd) as [_ Ld].
    pose proof (Z.log2_nonneg n). pose proof (Z.log2_nonneg d).
    unfold pow2. destruct (Z.leb_spec 0 (e - 1)); cbn [fst snd].
    + assert (E : (2 ^ Z.log2 n = 2 ^ (e - 1) * 2 ^ Z.succ (Z.log2 d))%Z).
      { rewrite <- Z.pow_add_r by lia. f_equal. unfold e. lia. }
      assert (0 < 2 ^ (e - 1))%Z by (apply Z.pow_pos_nonneg; lia).
      nia.
    + assert (E : (2 ^ Z.succ (Z.log2 d)
                   = 2 ^ Z.log2 n * 2 ^ (- (e - 1)))%Z).
      { rewrite <- Z.pow_add_r by lia. f_equal. unfold e. lia. }
      assert (0 < 2 ^ (- (e - 1)))%Z by (apply Z.pow_pos_nonneg; lia).
      nia.
Qed.

(** [nearestEven n d] is within one half of [n / d]. *)
Lemma nearestEven_error n d :
  (0 < d)%Z -> (- d <= 2 * (nearestEven n d * d - n) <= d)%Z.
Proof.
  intros Hd. unfold nearestEven.
  pose proof (Z.div_mod n d ltac:(lia)) as E.
  pose proof (Z.mod_pos_bound n d Hd) as B.
  destruct (Z.compare_spec (2 * (n mod d)) d) as [C|C|C].
  - destruct (Z.even (n / d)); nia.
  - nia.
  - nia.
Qed.

Lemma nearestEven_nonneg n d :
  (0 <= n)%Z -> (0 < d)%Z -> (0 <= nearestEven n d)%Z.
Proof.
  intros Hn Hd. unfold nearestEven.
  pose proof (Z.div_pos n d Hn Hd).
  destruct (2 * (n mod d) ?= d)%Z; [destruct (Z.even (n / d))| |]; lia.
Qed.

(** A number that is not negative rounds to one that is not negative,
    with a relative error of at most [2^-53], or an absolute one of at
    most [2^-1075] among the subnormal numbers. *)
Lemma round_bounds x :
  (0 <= x)%Q ->
  (0 <= round x)%Q
  /\ (x - (x * (1 # 2 ^ 53) + (1 # 2 ^ 1075)) <= round x)%Q
  /\ (round x <= x + (x * (1 # 2 ^ 53) + (1 # 2 ^ 1075)))%Q.
Proof.
  intros Hx.
  pose proof (Qred_correct x) as Hq.
  unfold round. set (q := Qred x) in *.
  assert (Hq0 : (0 <= q)%Q) by (rewrite Hq; exact Hx).
  assert (Hn0 : (0 <= Qnum q)%Z).
  { unfold Qle in Hq0. cbn in Hq0. lia. }
  rewrite (Z.abs_eq _ Hn0).
  destruct (Z.eqb_spec (Qnum q) 0) as [E|E].
  - assert (Hz : (x == 0)%Q).
    { rewrite <- Hq. unfold Qeq. cbn. rewrite E. reflexivity. }
    rewrite Hz. repeat split; discriminate.
  - set (n := Qnum q) in *. set (d := Z.pos (Qden q)).
    assert (Hn : (0 < n)%Z) by lia.
    assert (Hd : (0 < d)%Z) by (unfold d; lia).
    replace (Z.sgn n) with 1%Z by lia.
    pose proof (exponent_le n d Hn Hd) as He.
    set (e := exponent n d) in *.
    set (k := Z.min (52 - e) 1074).
    rewrite (pow2_opp k).
    pose proof (pow2_pos k) as [Ha Hb].
    assert (Hk : (pow2 k = pow2 (52 - e) /\ (52 - e <= 1074)%Z)
                 \/ pow2 k = (2 ^ 1074, 1)%Z).
    { unfold k. destruct (Z.min_spec (52 - e) 1074) as [[H1 H2]|[H1 H2]];
        rewrite H2; [left; split; [reflexivity | lia] | right; reflexivity]. }
    destruct (pow2 k) as [a b] eqn:P. cbn [fst snd] in *.
    pose proof (nearestEven_error (n * a) (d * b) ltac:(nia)) as Hm.
    pose proof (nearestEven_nonneg (n * a) (d * b) ltac:(nia) ltac:(nia))
      as Hm0.
    set (m := nearestEven (n * a) (d * b)) in *.
    set (r := (1 * m * b # Z.to_pos a)).
    assert (Hxq : (x == n # Qden q)%Q).
    { rewrite <- Hq. destruct q as [qn qd]. reflexivity. }
    assert (A1 : (r <= (n # Qden q) + (b # Z.to_pos (2 * a)))%Q).
    { unfold r, Qle, Qplus. cbn [Qnum Qden].
      rewrite !Pos2Z.inj_mul, !Z2Pos.id by lia. fold d. nia. }
    assert (A2 : ((n # Qden q) <= r + (b # Z.to_pos (2 * a)))%Q).
    { unfold r, Qle, Qplus. cbn [Qnum Qden].
      rewrite !Pos2Z.inj_mul, !Z2Pos.id by lia. fold d. nia. }
    assert (B : ((b # Z.to_pos (2 * a))
                 <= (n # Qden q) * (1 # 2 ^ 53) + (1 # 2 ^ 1075))%Q).
    { destruct Hk as [[Hk Hle] | Hk].
      - assert (B' : ((b # Z.to_pos (2 * a))
                      <= (n # Qden q) * (1 # 2 ^ 53))%Q).
        { pose proof (pow2_52 e) as H52. rewrite <- Hk in H52.
          cbn [fst snd] in H52.
          pose proof (pow2_pos e) as [Hae Hbe].
          assert (F : (2 ^ 52 * (b * d) <= a * n)%Z).
          { apply (Z.mul_le_mono_pos_l _ _ (snd (pow2 e))); [exact Hbe|].
            nia. }
          unfold Qle, Qmult. cbn [Qnum Qden].
          rewrite !Pos2Z.inj_mul, !Z2Pos.id by lia. fold d.
          change (Z.pos (2 ^ 53)) with (2 * 2 ^ 52)%Z. nia. }
        assert (0 <= (1 # 2 ^ 1075))%Q by discriminate. lra.
      - injection Hk as -> ->.
        assert (B' : ((1 # Z.to_pos (2 * 2 ^ 1074)) == (1 # 2 ^ 1075))%Q)
          by reflexivity.
        rewrite B'.
        assert (0 <= (n # Qden q) * (1 # 2 ^ 53))%Q.
        { apply Qmult_le_0_compat; [|discriminate].
          unfold Qle. cbn. lia. }
        lra. }
    rewrite Hxq. split; [|split].
    + unfold r, Qle. cbn. nia.
    + lra.
    + lra.
Qed.

(** Two numbers less than one apart have floors at most one apart. *)
Lemma floor_near (p E : Q) :
  (E - 1 < p)%Q -> (p < E + 1)%Q ->
  (Qfloor E - 1 <= Qfloor p <= Qfloor E + 1)%Z.
Proof.
  intros H1 H2.
  pose proof (Qfloor_le p) as P1. pose proof (Qlt_floor p) as P2.
  pose proof (Qfloor_le E) as E1. pose proof (Qlt_floor E) as E2.
  rewrite inject_Z_plus in P2, E2.
  change (inject_Z 1) with 1%Q in P2, E2.
  split.
  - assert (H : (inject_Z (Qfloor E) < inject_Z (Qfloor p + 2))%Q).
    { rewrite inject_Z_plus. change (inject_Z 2) with 2%Q. lra. }
    rewrite <- Zlt_Qlt in H. lia.
  - assert (H : (inject_Z (Qfloor p) < inject_Z (Qfloor E + 2))%Q).
    { rewrite inject_Z_plus. change (inject_Z 2) with 2%Q. lra. }
    rewrite <- Zlt_Qlt in H. lia.
Qed.

End DoubleFacts.

(** [Double] against the binary64 arithmetic of the kernel, on the
    operands the theorems below meet. *)

Module PrimitiveDoubleFacts.
Import Floats PrimitiveDouble.

Example round_agrees_with_primitive_floats :
  agrees (580 / 1000)%float (Double.div 580 1000) = true
  /\ agrees (580 / 1000 * 50)%float (Double.mul (Double.div 580 1000) 50)
     = true
  /\ agrees (2000 / 1000 * 1)%float (Double.mul (Double.div 2000 1000) 1)
     = true
  /\ agrees (1 / 161)%float (Double.div 1 161) = true
  /\ agrees (161 * (1 / 161))%float (Double.mul 161 (Double.div 1 161))
     = true
  /\ agrees (1 / 3 + 2 / 7)%float
       (Double.add (Double.div 1 3) (Double.div 2 7)) = true
  /\ agrees (1 / 3 - 2 / 7)%float
       (Double.sub (Double.div 1 3) (Double.div 2 7)) = true
  /\ agrees (0 - 1 / 10)%float (Double.sub 0 (Double.div 1 10)) = true
  /\ agrees (9007199254740992 + 1)%float (Double.add 9007199254740992 1)
     = true
  /\ agrees (9007199254740992 + 3)%float (Double.add 9007199254740992 3)
     = true
  /\ agrees (0x1p-1074 / 2)%float (Double.div (1 # 2 ^ 1074) 2) = true
  /\ agrees (0x1p-1074 * 3 / 2)%float
       (Double.div (Double.mul (1 # 2 ^ 1074) 3) 2) = true.
Proof. vm_compute. repeat split. Qed.

(** The product [ms / 1000 * rate] of the refill, for every number of
    milliseconds up to one second at five rates. *)
Example refill_product_agrees_with_primitive_floats :
  forallb (fun ms => forallb (sameProduct ms) [1; 10; 50; 100; 1000]%Z)
          (seqZ 0 1001)
  = true.
Proof. vm_compute. reflexivity. Qed.

End PrimitiveDoubleFacts.

(** ** The token bucket *)

Module TokenBucketFacts.
Import JS JSFacts TokenBucket.

Lemma config_consume now key tb :
  config (snd (consume now key tb)) = config tb.
Proof. reflexivity. Qed.

Lemma bucketKey_consume now key tb k :
  bucketKey (snd (consume now key tb)) k = bucketKey tb k.
Proof. reflexivity. Qed.

Lemma stored_consume now key tb :
  storage (snd (consume now key tb)) !! bucketKey tb key
  = Some (spend (refill tb now (load now key tb))).
Proof. cbn. apply lookup_insert_eq. Qed.

Lemma load_consume now now' key tb :
  load now' key (snd (consume now key tb))
  = spend (refill tb now (load now key tb)).
Proof.
  unfold load at 1. now rewrite bucketKey_consume, stored_consume.
Qed.

Lemma allowed_consume now key tb :
  allowed (fst (consume now key tb))
  = ge (tokens (refill tb now (load now key tb))) 1.
Proof. reflexivity. Qed.

Lemma remaining_consume now key tb :
  remainingTokens (fst (consume now key tb))
  = tokens (spend (refill tb now (load now key tb))).
Proof. reflexivity. Qed.


Lemma load_new now key cfg :
  load now key (new cfg) = {| tokens := capacity cfg; lastRefill := now |}.
Proof. reflexivity. Qed.

(** No time has passed: nothing to add. *)
Lemma tokensToAdd_same_instant tb now b :
  lastRefill b = now -> (tokensToAdd tb now b == 0)%Q.
Proof.
  intros <-. unfold tokensToAdd, Math_floor. rewrite Z.sub_diag.
  assert (E : (inject_Z 0 / 1000 * refillRate (config tb) == 0)%Q)
    by (unfold Qdiv; ring).
  now rewrite E.
Qed.

Lemma refill_same_instant tb now b :
  lastRefill b = now -> refill tb now b = b.
Proof.
  intros H. unfold refill.
  rewrite (gt_proper _ 0 0 (tokensToAdd_same_instant tb now b H)).
  reflexivity.
Qed.

Lemma tokens_spend b :
  (ge (tokens b) 1 = true /\ (tokens (spend b) == tokens b - 1)%Q) \/
  (ge (tokens b) 1 = false /\ spend b = b).
Proof.
  unfold spend. destruct (ge (tokens b) 1); [left | right]; split;
    reflexivity.
Qed.

Lemma lastRefill_spend b : lastRefill (spend b) = lastRefill b.
Proof. unfold spend. now destruct (ge (tokens b) 1). Qed.

Lemma consumeMany_S n now key tb :
  consumeMany (S n) now key tb
  = (allowed (fst (consume now key tb))
       :: fst (consumeMany n now key (snd (consume now key tb))),
     snd (consumeMany n now key (snd (consume now key tb)))).
Proof.
  cbn [consumeMany]. destruct (consume now key tb) as [r tb'].
  cbn [fst snd]. now destruct (consumeMany n now key tb').
Qed.

Lemma consumeMany_app n m now key tb :
  consumeMany (n + m) now key tb
  = (fst (consumeMany n now key tb)
       ++ fst (consumeMany m now key (snd (consumeMany n now key tb))),
     snd (consumeMany m now key (snd (consumeMany n now key tb)))).
Proof.
  revert tb. induction n as [|n IH]; intros tb.
  - cbn [consumeMany Nat.add fst snd app].
    now destruct (consumeMany m now key tb).
  - change (S n + m)%nat with (S (n + m)).
    rewrite !consumeMany_S, IH. reflexivity.
Qed.

Lemma config_consumeMany n now key tb :
  config (snd (consumeMany n now key tb)) = config tb.
Proof.
  revert tb. induction n as [|n IH]; intros tb; [reflexivity|].
  rewrite consumeMany_S. cbn [snd]. now rewrite IH.
Qed.

Lemma bucketKey_config tb tb' k :
  config tb' = config tb -> bucketKey tb' k = bucketKey tb k.
Proof. unfold bucketKey. now intros ->. Qed.

(** After at least one call the key has an entry. *)
Lemma stored_consumeMany n now key tb :
  n <> O ->
  storage (snd (consumeMany n now key tb)) !! bucketKey tb key
  = Some (load now key (snd (consumeMany n now key tb))).
Proof.
  revert tb. induction n as [|n IH]; intros tb Hn; [congruence|].
  rewrite consumeMany_S. cbn [snd].
  destruct n as [|n].
  - cbn [consumeMany snd]. rewrite load_consume. apply stored_consume.
  - rewrite <- (bucketKey_consume now key tb key). now apply IH.
Qed.

(** [n] tokens and no time passing: [n] calls are allowed and empty the
    bucket. *)
Lemma consumeMany_exhaust n now key tb :
  (tokens (load now key tb) == inject_Z (Z.of_nat n))%Q ->
  lastRefill (load now key tb) = now ->
  fst (consumeMany n now key tb) = replicate n true
  /\ (tokens (load now key (snd (consumeMany n now key tb))) == 0)%Q
  /\ lastRefill (load now key (snd (consumeMany n now key tb))) = now.
Proof.
  revert tb. induction n as [|n IH]; intros tb Ht Hl.
  - now repeat split.
  - rewrite consumeMany_S. cbn [fst snd].
    assert (Hr : refill tb now (load now key tb) = load now key tb)
      by now apply refill_same_instant.
    assert (Hge : ge (tokens (load now key tb)) 1 = true).
    { apply ge_true. rewrite Ht, Nat2Z.inj_succ.
      change 1%Q with (inject_Z 1). rewrite <- Zle_Qle. lia. }
    destruct (IH (snd (consume now key tb))) as (Hfst & Hz & Hl').
    + rewrite load_consume, Hr.
      destruct (tokens_spend (load now key tb)) as [[_ E] | [E _]];
        [|congruence].
      rewrite E, Ht, Nat2Z.inj_succ. unfold Z.succ.
      rewrite inject_Z_plus. ring.
    + now rewrite load_consume, Hr, lastRefill_spend.
    + rewrite allowed_consume, Hr, Hge, Hfst. now repeat split.
Qed.

(** A call on an empty bucket at the instant of its last refill is
    refused. *)
Lemma consume_empty now key tb :
  (tokens (load now key tb) == 0)%Q ->
  lastRefill (load now key tb) = now ->
  allowed (fst (consume now key tb)) = false.
Proof.
  intros Ht Hl. rewrite allowed_consume, refill_same_instant by exact Hl.
  apply ge_false. lra.
Qed.

Lemma consumeMany_bound n now key tb :
  (tokens (load now key tb) == inject_Z (Z.of_nat n))%Q ->
  lastRefill (load now key tb) = now ->
  fst (consumeMany (n + 1) now key tb) = replicate n true ++ [false].
Proof.
  intros Ht Hl. rewrite consumeMany_app. cbn [fst].
  destruct (consumeMany_exhaust n now key tb Ht Hl) as (Hfst & Hz & Hl').
  rewrite Hfst. f_equal.
  rewrite (consumeMany_S 0). cbn [fst consumeMany].
  now rewrite consume_empty.
Qed.

(** C1. On a freshly constructed bucket whose capacity is the positive
    integer [c], with no time passing between the calls, the first [c]
    calls of [consume(key)] are allowed and call [c + 1] is refused. *)
Theorem capacity_bound (c : positive) cfg key now :
  (capacity cfg == inject_Z (Z.pos c))%Q ->
  fst (consumeMany (Pos.to_nat c + 1) now key (new cfg))
  = replicate (Pos.to_nat c) true ++ [false].
Proof.
  intros Hc. apply consumeMany_bound.
  - rewrite load_new. cbn [tokens]. now rewrite positive_nat_Z.
  - reflexivity.
Qed.

Lemma capacity_bound_witness :
  fst (consumeMany (Pos.to_nat 10 + 1) 1000 "client1"
         (new {| capacity := 10; refillRate := 1;
                 keyPrefix := Some "test"%string |}))
  = replicate (Pos.to_nat 10) true ++ [false].
Proof. apply capacity_bound. reflexivity. Defined.

(** *** Bounds of the stored tokens *)

Lemma settled_fresh cap now :
  (0 <= cap)%Q -> settled cap {| tokens := cap; lastRefill := now |}.
Proof. intros H. split; cbn; [lra | reflexivity]. Qed.

Lemma settled_load now key tb :
  (0 <= capacity (config tb))%Q -> invariant tb ->
  settled (capacity (config tb)) (load now key tb).
Proof.
  intros Hc Hi. unfold load.
  destruct (storage tb !! bucketKey tb key) as [b|] eqn:E.
  - exact (Hi _ _ E).
  - now apply settled_fresh.
Qed.

Lemma settled_refill tb now b :
  settled (capacity (config tb)) b ->
  settled (capacity (config tb)) (refill tb now b).
Proof.
  intros [[H0 Hc] Hs]. unfold refill.
  destruct (gt (tokensToAdd tb now b) 0) eqn:G; [|now split].
  apply gt_true in G. unfold settled. cbn [tokens].
  destruct (min_cases (capacity (config tb))
              (tokens b + tokensToAdd tb now b)) as [[Hle E] | [Hle E]];
    (split; [lra|]); intros Hlt; specialize (Hs Hlt); lra.
Qed.

Lemma settled_spend cap b : settled cap b -> settled cap (spend b).
Proof.
  intros [[H0 Hc] Hs].
  destruct (tokens_spend b) as [[G E] | [G E]]; [|now rewrite E].
  apply ge_true in G. split; [lra|]. intros Hlt. lra.
Qed.

Lemma invariant_new cfg : invariant (new cfg).
Proof. unfold invariant. cbn. apply map_Forall_empty. Qed.

Lemma invariant_consume now key tb :
  (0 <= capacity (config tb))%Q -> invariant tb ->
  invariant (snd (consume now key tb)).
Proof.
  intros Hc Hi. unfold invariant. cbn [consume snd config storage].
  apply map_Forall_insert_2; [|exact Hi].
  now apply settled_spend, settled_refill, settled_load.
Qed.

Lemma invariant_reset key tb : invariant tb -> invariant (reset key tb).
Proof.
  intros Hi. unfold invariant, reset.
  destruct key as [k|]; [destruct (String.eqb k "")|]; cbn;
    try apply map_Forall_empty.
  now apply map_Forall_delete.
Qed.

Lemma config_step w o : config (limiter (step w o)) = config (limiter w).
Proof.
  destruct o as [k|k|k|ms]; try reflexivity.
  cbn [step limiter]. unfold reset.
  destruct k as [k|]; [destruct (String.eqb k "")|]; reflexivity.
Qed.

Lemma invariant_step w o :
  (0 <= capacity (config (limiter w)))%Q -> invariant (limiter w) ->
  invariant (limiter (step w o)).
Proof.
  intros Hc Hi. destruct o as [k|k|k|ms]; cbn [step limiter].
  - now apply invariant_consume.
  - exact Hi.
  - now apply invariant_reset.
  - exact Hi.
Qed.

Lemma config_run ops w : config (limiter (run ops w)) = config (limiter w).
Proof.
  revert w. induction ops as [|o ops IH]; intros w; [reflexivity|].
  cbn. change (foldl step (step w o) ops) with (run ops (step w o)).
  now rewrite IH, config_step.
Qed.

Lemma invariant_run ops w :
  (0 <= capacity (config (limiter w)))%Q -> invariant (limiter w) ->
  invariant (limiter (run ops w)).
Proof.
  revert w. induction ops as [|o ops IH]; intros w Hc Hi; [exact Hi|].
  cbn. change (foldl step (step w o) ops) with (run ops (step w o)).
  apply IH; [now rewrite config_step | now apply invariant_step].
Qed.

Lemma invariant_trace ops w :
  (0 <= capacity (config (limiter w)))%Q -> invariant (limiter w) ->
  Forall (fun w' => invariant (limiter w')
                    /\ config (limiter w') = config (limiter w))
         (trace ops w).
Proof.
  revert w. induction ops as [|o ops IH]; intros w Hc Hi; cbn [trace];
    constructor.
  - split; [now apply invariant_step | apply config_step].
  - eapply Forall_impl.
    + apply IH; [now rewrite config_step | now apply invariant_step].
    + cbn. intros w' [H1 H2]. split; [exact H1|].
      now rewrite H2, config_step.
Qed.

(** A refused call found nothing to add, or a bucket that cannot hold a
    whole token: the tokens it leaves are the tokens it found. *)
Lemma refused_unchanged tb now b :
  settled (capacity (config tb)) b ->
  ge (tokens (refill tb now b)) 1 = false ->
  (tokens (refill tb now b) == tokens b)%Q.
Proof.
  intros [[H0 Hc] Hs] G. apply ge_false in G. revert G. unfold refill.
  destruct (gt (tokensToAdd tb now b) 0) eqn:Ha; [|reflexivity].
  apply gt_true, floor_pos_ge_1 in Ha. cbn [tokens]. intros G.
  fold (tokensToAdd tb now b) in Ha.
  destruct (min_cases (capacity (config tb))
              (tokens b + tokensToAdd tb now b)) as [[Hle E] | [Hle E]];
    [|lra].
  rewrite E in *. symmetry. apply Hs. lra.
Qed.

(** C3. From a bucket constructed with a positive capacity, after every
    operation of every run of [consume], [getStatus], [reset] and clock
    advances, each stored bucket has [0 <= tokens <= capacity]; and a
    [consume] at the end of any such run either is allowed and stores one
    token less than the refill made available, or is refused and stores
    the tokens it found. *)
Theorem tokens_invariant cfg t0 ops :
  (0 < capacity cfg)%Q ->
  Forall (fun w =>
            map_Forall (fun _ b => (0 <= tokens b <= capacity cfg)%Q)
                       (storage (limiter w)))
         (trace ops (fresh cfg t0))
  /\ forall key,
      let w := run ops (fresh cfg t0) in
      let before := load (clock w) key (limiter w) in
      let available := refill (limiter w) (clock w) before in
      let r := fst (consume (clock w) key (limiter w)) in
      exists after,
        storage (snd (consume (clock w) key (limiter w)))
          !! bucketKey (limiter w) key = Some after
        /\ (remainingTokens r == tokens after)%Q
        /\ ((allowed r = true
             /\ (tokens after == tokens available - 1)%Q)
            \/ (allowed r = false
                /\ (tokens after == tokens available)%Q
                /\ (tokens after == tokens before)%Q)).
Proof.
  intros Hpos.
  assert (Hc : (0 <= capacity (config (limiter (fresh cfg t0))))%Q)
    by (cbn; lra).
  assert (Hi : invariant (limiter (fresh cfg t0)))
    by apply invariant_new.
  split.
  - eapply Forall_impl; [exact (invariant_trace ops _ Hc Hi)|].
    cbn beta. intros w [Hw Hcfg] k b Hb.
    specialize (Hw k b Hb). cbn beta in Hw. rewrite Hcfg in Hw.
    exact (proj1 Hw).
  - intros key w before available r.
    assert (Hw : invariant (limiter w)) by now apply invariant_run.
    assert (Hcw : (0 <= capacity (config (limiter w)))%Q)
      by (unfold w; now rewrite config_run).
    exists (spend available). split; [apply stored_consume|].
    split; [reflexivity|].
    assert (Hs : settled (capacity (config (limiter w))) before)
      by now apply settled_load.
    unfold r. rewrite allowed_consume. fold before. fold available.
    destruct (tokens_spend available) as [[G E] | [G E]].
    + left. now split.
    + right. rewrite E. split; [exact G|]. split; [reflexivity|].
      now apply refused_unchanged.
Qed.

Lemma tokens_invariant_witness :
  let cfg := {| capacity := 2; refillRate := 1; keyPrefix := None |} in
  let ops := [OpConsume "a"; OpAdvance 1500; OpConsume "a";
              OpConsume "a"; OpConsume "a"] in
  let w := run ops (fresh cfg 0) in
  Forall (fun w' =>
            map_Forall (fun _ b => (0 <= tokens b <= 2)%Q)
                       (storage (limiter w')))
         (trace ops (fresh cfg 0))
  /\ exists after,
      storage (snd (consume (clock w) "a" (limiter w)))
        !! bucketKey (limiter w) "a" = Some after
      /\ (remainingTokens (fst (consume (clock w) "a" (limiter w)))
          == tokens after)%Q
      /\ ((allowed (fst (consume (clock w) "a" (limiter w))) = true
           /\ (tokens after
               == tokens (refill (limiter w) (clock w)
                            (load (clock w) "a" (limiter w))) - 1)%Q)
          \/ (allowed (fst (consume (clock w) "a" (limiter w))) = false
              /\ (tokens after
                  == tokens (refill (limiter w) (clock w)
                               (load (clock w) "a" (limiter w))))%Q
              /\ (tokens after
                  == tokens (load (clock w) "a" (limiter w)))%Q)).
Proof.
  intros cfg ops w.
  destruct (tokens_invariant cfg 0 ops) as [H1 H2]; [reflexivity|].
  split; [exact H1 | exact (H2 "a"%string)].
Defined.

(** *** The refill *)

Lemma elapsed_nonneg (z : Z) (rate : Q) :
  (0 <= z)%Z -> (0 <= rate)%Q -> (0 <= inject_Z z / 1000 * rate)%Q.
Proof.
  intros Hz Hr. apply Qmult_le_0_compat; [|exact Hr].
  assert (H : (0 <= inject_Z z)%Q)
    by (change 0%Q with (inject_Z 0); now rewrite <- Zle_Qle).
  unfold Qdiv. apply Qmult_le_0_compat; [exact H|].
  unfold Qle. cbn. lia.
Qed.

(** With the clock not behind the bucket and a rate that is not
    negative, the guard of the refill only skips additions of zero. *)
Lemma refill_exact tb now b :
  (0 <= refillRate (config tb))%Q ->
  (lastRefill b <= now)%Z ->
  (tokens b <= capacity (config tb))%Q ->
  (tokens (refill tb now b)
   == Qmin (capacity (config tb))
           (tokens b
            + inject_Z (Qfloor (inject_Z (now - lastRefill b) / 1000
                                * refillRate (config tb)))))%Q.
Proof.
  intros Hr Hl Hc. unfold refill.
  destruct (gt (tokensToAdd tb now b) 0) eqn:G; [reflexivity|].
  apply gt_false in G.
  assert (H0 : (0 <= tokensToAdd tb now b)%Q).
  { apply floor_nonneg, elapsed_nonneg; [lia | exact Hr]. }
  unfold tokensToAdd, Math_floor in G, H0.
  destruct (min_cases (capacity (config tb))
              (tokens b + inject_Z (Qfloor (inject_Z (now - lastRefill b)
                 / 1000 * refillRate (config tb)))))
    as [[Hle E] | [Hle E]]; unfold Math_min in E; rewrite E; lra.
Qed.

Lemma timely_step w o :
  match o with OpAdvance ms => (0 <= ms)%Z | _ => True end ->
  timely w -> timely (step w o).
Proof.
  intros Ho Hw. unfold timely in *.
  destruct o as [k|k|k|ms]; cbn [step clock limiter].
  - cbn [consume snd storage]. apply map_Forall_insert_2; [|exact Hw].
    rewrite lastRefill_spend. unfold refill, load.
    destruct (gt _ 0); cbn [lastRefill]; [lia|].
    destruct (storage (limiter w) !! bucketKey (limiter w) k) as [b|] eqn:E;
      [exact (Hw _ _ E) | cbn; lia].
  - exact Hw.
  - unfold reset.
    destruct k as [k|]; [destruct (String.eqb k "")|]; cbn [storage];
      try apply map_Forall_empty.
    now apply map_Forall_delete.
  - intros k b Hb. specialize (Hw k b Hb). cbn beta in *. lia.
Qed.

Lemma timely_run ops w :
  forwardOnly ops -> timely w -> timely (run ops w).
Proof.
  revert w. induction ops as [|o ops IH]; intros w Hf Hw; [exact Hw|].
  inversion Hf as [|? ? Ho Hf']; subst.
  cbn. change (foldl step (step w o) ops) with (run ops (step w o)).
  apply IH; [exact Hf' | now apply timely_step].
Qed.

Lemma timely_load w key :
  timely w -> (lastRefill (load (clock w) key (limiter w)) <= clock w)%Z.
Proof.
  intros Hw. unfold load.
  destruct (storage (limiter w) !! bucketKey (limiter w) key) as [b|] eqn:E;
    [exact (Hw _ _ E) | cbn; lia].
Qed.

(** *** [lastRefill] *)





(** *** [getStatus] *)

(** C9. [getStatus] returns the bucket it was given: every stored
    [tokens] and [lastRefill] is what it was, the set of keys with an
    entry is the same (a key never seen before gets none), and a second
    call at the same instant reports the same [remainingTokens].  In a
    run, a [getStatus] step leaves the world as it is. *)
Theorem getStatus_pure now key tb :
  snd (getStatus now key tb) = tb
  /\ (forall k, storage (snd (getStatus now key tb)) !! k
                = storage tb !! k)
  /\ dom (storage (snd (getStatus now key tb))) = dom (storage tb)
  /\ status_remainingTokens
       (fst (getStatus now key (snd (getStatus now key tb))))
     = status_remainingTokens (fst (getStatus now key tb))
  /\ (forall w, step w (OpGetStatus key) = w).
Proof.
  repeat split; try reflexivity.
  intros [c l]. reflexivity.
Qed.

End TokenBucketFacts.

(** ** The refill in double precision *)

Module TokenBucketDoubleFacts.
Import JS JSFacts TokenBucket DoubleFacts.

Lemma double_load_consume now now' key tb :
  load now' key (snd (TokenBucketDouble.consume now key tb))
  = TokenBucketDouble.spend
      (TokenBucketDouble.refill tb now (load now key tb)).
Proof.
  unfold load at 1.
  change (bucketKey (snd (TokenBucketDouble.consume now key tb)) key)
    with (bucketKey tb key).
  cbn [TokenBucketDouble.consume snd storage].
  now rewrite lookup_insert_eq.
Qed.

Lemma double_allowed_consume now key tb :
  allowed (fst (TokenBucketDouble.consume now key tb))
  = ge (tokens (TokenBucketDouble.refill tb now (load now key tb))) 1.
Proof. reflexivity. Qed.

(** No time has passed: nothing to add, whatever the rate. *)
Lemma double_tokensToAdd_same_instant tb now b :
  lastRefill b = now -> (TokenBucketDouble.tokensToAdd tb now b == 0)%Q.
Proof.
  intros <-. unfold TokenBucketDouble.tokensToAdd, Math_floor.
  rewrite Z.sub_diag.
  assert (E : (Double.mul (Double.div (inject_Z 0) 1000)
                          (refillRate (config tb)) == inject_Z 0)%Q).
  { apply round_whole; [|cbn; lia].
    change (Double.div (inject_Z 0) 1000) with 0%Q. ring. }
  now rewrite (Qfloor_comp _ _ E), Qfloor_Z.
Qed.

Lemma double_refill_same_instant tb now b :
  lastRefill b = now -> TokenBucketDouble.refill tb now b = b.
Proof.
  intros H. unfold TokenBucketDouble.refill.
  rewrite (gt_proper _ 0 0 (double_tokensToAdd_same_instant tb now b H)).
  reflexivity.
Qed.

(** Whole seconds at a whole rate: the quotient and the product are
    integers, nothing is rounded, and the count is the exact one. *)
Lemma double_tokensToAdd_whole tb now b (seconds rate : Z) :
  (now - lastRefill b = 1000 * seconds)%Z ->
  (refillRate (config tb) == inject_Z rate)%Q ->
  (Z.abs seconds < 2 ^ 53)%Z -> (Z.abs (seconds * rate) < 2 ^ 53)%Z ->
  (TokenBucketDouble.tokensToAdd tb now b == inject_Z (seconds * rate))%Q
  /\ (tokensToAdd tb now b == inject_Z (seconds * rate))%Q.
Proof.
  intros Hs Hr B1 B2. split.
  - unfold TokenBucketDouble.tokensToAdd, Math_floor. rewrite Hs.
    assert (E : (Double.mul (Double.div (inject_Z (1000 * seconds)) 1000)
                            (refillRate (config tb))
                 == inject_Z (seconds * rate))%Q).
    { apply mul_whole; [|exact Hr|exact B2].
      apply (div_whole _ _ seconds 1000); [|reflexivity|lia|exact B1].
      now rewrite Z.mul_comm. }
    now rewrite (Qfloor_comp _ _ E), Qfloor_Z.
  - unfold tokensToAdd, Math_floor. rewrite Hs.
    assert (E : (inject_Z (1000 * seconds) / 1000 * refillRate (config tb)
                 == inject_Z (seconds * rate))%Q).
    { rewrite Hr, !inject_Z_mult. change (inject_Z 1000) with 1000%Q.
      field. }
    now rewrite (Qfloor_comp _ _ E), Qfloor_Z.
Qed.

(** Rounding moves the count by one token at most, for a rate and a
    product of up to [2^50]. *)
Lemma double_tokensToAdd_near tb now b :
  (lastRefill b <= now)%Z ->
  (0 <= refillRate (config tb) <= inject_Z (2 ^ 50))%Q ->
  (inject_Z (now - lastRefill b) / 1000 * refillRate (config tb)
   <= inject_Z (2 ^ 50))%Q ->
  let exact :=
    Qfloor (inject_Z (now - lastRefill b) / 1000 * refillRate (config tb)) in
  exists added : Z,
    TokenBucketDouble.tokensToAdd tb now b = inject_Z added
    /\ (exact - 1 <= added <= exact + 1)%Z.
Proof.
  intros Hl [Hr0 Hr1] HE exact.
  exists (Qfloor (Double.mul (Double.div (inject_Z (now - lastRefill b)) 1000)
                             (refillRate (config tb)))).
  split; [reflexivity|]. unfold exact.
  set (rate := refillRate (config tb)) in *.
  set (x1 := (inject_Z (now - lastRefill b) / 1000)%Q) in *.
  assert (Hx1 : (0 <= x1)%Q).
  { unfold x1, Qdiv. apply Qmult_le_0_compat; [|discriminate].
    change 0%Q with (inject_Z 0). rewrite <- Zle_Qle. lia. }
  unfold Double.mul, Double.div. fold x1.
  destruct (round_bounds x1 Hx1) as (T0 & T1 & T2).
  set (td := Double.round x1) in *.
  assert (Hx2 : (0 <= td * rate)%Q) by now apply Qmult_le_0_compat.
  destruct (round_bounds (td * rate) Hx2) as (_ & P1 & P2).
  assert (U : (td * rate
               <= x1 * rate + x1 * rate * (1 # 2 ^ 53)
                  + (1 # 2 ^ 1075) * rate)%Q).
  { assert (H : (td * rate
                 <= (x1 + (x1 * (1 # 2 ^ 53) + (1 # 2 ^ 1075))) * rate)%Q)
      by (apply Qmult_le_compat_r; assumption).
    lra. }
  assert (L : (x1 * rate - x1 * rate * (1 # 2 ^ 53)
               - (1 # 2 ^ 1075) * rate
               <= td * rate)%Q).
  { assert (H : ((x1 - (x1 * (1 # 2 ^ 53) + (1 # 2 ^ 1075))) * rate
                 <= td * rate)%Q)
      by (apply Qmult_le_compat_r; assumption).
    lra. }
  assert (HE0 : (0 <= x1 * rate)%Q) by now apply Qmult_le_0_compat.
  change (inject_Z (2 ^ 50)) with 1125899906842624%Q in *.
  set (E := (x1 * rate)%Q) in *. set (x2 := (td * rate)%Q) in *.
  clearbody E x2 td x1.
  let c := eval vm_compute in (2 ^ 53)%positive in
  change (2 ^ 53)%positive with c in *.
  let c := eval vm_compute in (2 ^ 1075)%positive in
  change (2 ^ 1075)%positive with c in *.
  apply floor_near; lra.
Qed.

(** A whole number of tokens, at least one: one is taken, exactly. *)
Lemma double_spend_whole b (n : Z) :
  (tokens b == inject_Z n)%Q -> (1 <= n < 2 ^ 53)%Z ->
  ge (tokens b) 1 = true
  /\ (tokens (TokenBucketDouble.spend b) == inject_Z (n - 1))%Q
  /\ lastRefill (TokenBucketDouble.spend b) = lastRefill b.
Proof.
  intros Ht Hn.
  assert (G : ge (tokens b) 1 = true).
  { apply ge_true. rewrite Ht. change 1%Q with (inject_Z 1).
    rewrite <- Zle_Qle. lia. }
  unfold TokenBucketDouble.spend. rewrite G. cbn [tokens lastRefill].
  split; [reflexivity|]. split; [|reflexivity].
  apply (sub_whole _ _ n 1); [exact Ht | reflexivity | lia].
Qed.

Lemma double_spend_empty b :
  (tokens b < 1)%Q -> TokenBucketDouble.spend b = b.
Proof.
  intros H. unfold TokenBucketDouble.spend.
  now rewrite (proj2 (ge_false _ _) H).
Qed.

Lemma double_consumeMany_S n now key tb :
  TokenBucketDouble.consumeMany (S n) now key tb
  = (allowed (fst (TokenBucketDouble.consume now key tb))
       :: fst (TokenBucketDouble.consumeMany n now key
                 (snd (TokenBucketDouble.consume now key tb))),
     snd (TokenBucketDouble.consumeMany n now key
            (snd (TokenBucketDouble.consume now key tb)))).
Proof.
  cbn [TokenBucketDouble.consumeMany].
  destruct (TokenBucketDouble.consume now key tb) as [r tb'].
  cbn [fst snd]. now destruct (TokenBucketDouble.consumeMany n now key tb').
Qed.

Lemma double_config_consumeMany n now key tb :
  config (snd (TokenBucketDouble.consumeMany n now key tb)) = config tb.
Proof.
  revert tb. induction n as [|n IH]; intros tb; [reflexivity|].
  rewrite double_consumeMany_S. cbn [snd]. now rewrite IH.
Qed.

(** After at least one call the key has an entry. *)
Lemma double_stored_consumeMany n now key tb :
  n <> O ->
  storage (snd (TokenBucketDouble.consumeMany n now key tb))
    !! bucketKey tb key
  = Some (load now key (snd (TokenBucketDouble.consumeMany n now key tb))).
Proof.
  revert tb. induction n as [|n IH]; intros tb Hn; [congruence|].
  rewrite double_consumeMany_S. cbn [snd].
  destruct n as [|n].
  - cbn [TokenBucketDouble.consumeMany snd]. rewrite double_load_consume.
    cbn [TokenBucketDouble.consume snd storage]. apply lookup_insert_eq.
  - change (bucketKey tb key)
      with (bucketKey (snd (TokenBucketDouble.consume now key tb)) key).
    now apply IH.
Qed.

(** [n] tokens and no time passing: [n] calls are allowed and empty the
    bucket. *)
Lemma double_consumeMany_exhaust n now key tb :
  (tokens (load now key tb) == inject_Z (Z.of_nat n))%Q ->
  (Z.of_nat n < 2 ^ 53)%Z ->
  lastRefill (load now key tb) = now ->
  fst (TokenBucketDouble.consumeMany n now key tb) = replicate n true
  /\ (tokens (load now key
                (snd (TokenBucketDouble.consumeMany n now key tb))) == 0)%Q
  /\ lastRefill (load now key
                   (snd (TokenBucketDouble.consumeMany n now key tb))) = now.
Proof.
  revert tb. induction n as [|n IH]; intros tb Ht Hb Hl.
  - now repeat split.
  - rewrite double_consumeMany_S. cbn [fst snd].
    assert (Hr : TokenBucketDouble.refill tb now (load now key tb)
                 = load now key tb)
      by now apply double_refill_same_instant.
    destruct (double_spend_whole (load now key tb) (Z.of_nat (S n)))
      as (Hge & Hsp & Hls); [exact Ht | lia |].
    destruct (IH (snd (TokenBucketDouble.consume now key tb)))
      as (Hfst & Hz & Hl').
    + rewrite double_load_consume, Hr, Hsp.
      now replace (Z.of_nat (S n) - 1)%Z with (Z.of_nat n) by lia.
    + lia.
    + now rewrite double_load_consume, Hr, Hls.
    + rewrite double_allowed_consume, Hr, Hge, Hfst. now repeat split.
Qed.

(** A call on an empty bucket at the instant of its last refill is
    refused and leaves the bucket as it is. *)
Lemma double_consume_empty now key tb :
  (tokens (load now key tb) == 0)%Q ->
  lastRefill (load now key tb) = now ->
  allowed (fst (TokenBucketDouble.consume now key tb)) = false
  /\ load now key (snd (TokenBucketDouble.consume now key tb))
     = load now key tb.
Proof.
  intros Ht Hl. split.
  - rewrite double_allowed_consume, double_refill_same_instant by exact Hl.
    apply ge_false. lra.
  - rewrite double_load_consume, double_refill_same_instant by exact Hl.
    apply double_spend_empty. lra.
Qed.

(** An empty bucket of capacity ten, refilled at one token per second,
    two seconds after its last refill. *)
Lemma double_two_tokens_after_two_seconds tb key t0 b :
  capacity (config tb) = 10%Q -> refillRate (config tb) = 1%Q ->
  storage tb !! bucketKey tb key = Some b ->
  (tokens b == 0)%Q -> lastRefill b = t0 ->
  fst (TokenBucketDouble.consumeMany 3 (t0 + 2000) key tb)
  = [true; true; false].
Proof.
  intros Hcap Hrate Hst Hz Hl.
  assert (Hload : load (t0 + 2000) key tb = b).
  { unfold load. now rewrite Hst. }
  assert (Hadd : TokenBucketDouble.tokensToAdd tb (t0 + 2000) b = 2%Q).
  { unfold TokenBucketDouble.tokensToAdd. rewrite Hrate, Hl.
    replace (t0 + 2000 - t0)%Z with 2000%Z by lia.
    vm_compute. reflexivity. }
  set (b2 := TokenBucketDouble.refill tb (t0 + 2000) b).
  assert (Hre : (tokens b2 == inject_Z 2)%Q /\ lastRefill b2 = (t0 + 2000)%Z).
  { unfold b2, TokenBucketDouble.refill. rewrite Hadd, Hcap.
    change (gt 2 0) with true. cbn [tokens lastRefill].
    split; [|reflexivity].
    assert (E : (Double.add (tokens b) 2 == inject_Z 2)%Q).
    { apply (add_whole _ _ 0 2); [exact Hz | reflexivity | cbn; lia]. }
    destruct (min_cases 10 (Double.add (tokens b) 2)) as [[H E'] | [H E']];
      rewrite E'; rewrite E in *; [|reflexivity].
    change (inject_Z 2) with 2%Q in H. lra. }
  destruct Hre as [Ht2 Hl2].
  destruct (double_spend_whole b2 2 Ht2 ltac:(lia)) as (G2 & Hs2 & Hls2).
  rewrite (double_consumeMany_S 2). cbn [fst].
  rewrite double_allowed_consume, Hload. fold b2. rewrite G2. f_equal.
  set (tb1 := snd (TokenBucketDouble.consume (t0 + 2000) key tb)).
  assert (Hload1 : load (t0 + 2000) key tb1 = TokenBucketDouble.spend b2).
  { unfold tb1. now rewrite double_load_consume, Hload. }
  assert (Hl1 : lastRefill (load (t0 + 2000) key tb1) = (t0 + 2000)%Z)
    by now rewrite Hload1, Hls2.
  assert (Ht1 : (tokens (load (t0 + 2000) key tb1) == inject_Z 1)%Q)
    by now rewrite Hload1, Hs2.
  destruct (double_spend_whole _ 1 Ht1 ltac:(lia)) as (G1 & Hs1 & Hls1).
  rewrite (double_consumeMany_S 1). cbn [fst].
  rewrite double_allowed_consume,
    (double_refill_same_instant _ _ _ Hl1), G1. f_equal.
  rewrite (double_consumeMany_S 0).
  cbn [TokenBucketDouble.consumeMany fst]. f_equal.
  apply double_consume_empty.
  - rewrite double_load_consume, (double_refill_same_instant _ _ _ Hl1).
    exact Hs1.
  - rewrite double_load_consume, (double_refill_same_instant _ _ _ Hl1).
    now rewrite Hls1.
Qed.

(** The bucket of the refill test: ten tokens, one token per second. *)
Lemma double_refill_after_two_seconds key t0 :
  let cfg := {| capacity := 10; refillRate := 1;
                keyPrefix := Some "test"%string |} in
  let exhausted := snd (TokenBucketDouble.consumeMany 10 t0 key (new cfg)) in
  fst (TokenBucketDouble.consumeMany 10 t0 key (new cfg)) = replicate 10 true
  /\ allowed (fst (TokenBucketDouble.consume t0 key exhausted)) = false
  /\ fst (TokenBucketDouble.consumeMany 3 (t0 + 2000) key exhausted)
     = [true; true; false].
Proof.
  intros cfg exhausted.
  destruct (double_consumeMany_exhaust 10 t0 key (new cfg))
    as (Hfst & Hz & Hl); [reflexivity | cbn; lia | reflexivity |].
  assert (Hcfg : config exhausted = config (new cfg))
    by apply double_config_consumeMany.
  split; [exact Hfst|]. split; [now apply double_consume_empty|].
  apply (double_two_tokens_after_two_seconds exhausted key t0
           (load t0 key exhausted)).
  - now rewrite Hcfg.
  - now rewrite Hcfg.
  - replace (bucketKey exhausted key) with (bucketKey (new cfg) key)
      by (unfold bucketKey; now rewrite Hcfg).
    now apply double_stored_consumeMany.
  - exact Hz.
  - exact Hl.
Qed.

(** C2, as stated: it fails.  A bucket of 50 tokens refilled at 50 tokens
    per second is emptied at time 0 and asked again 580 ms later.  The
    claim counts [floor(0.58 * 50) = 29] tokens.  The source divides 580
    by 1000 and multiplies by 50 in double precision, which gives
    28.999999999999996, and floors that: 28 tokens are added and the call
    leaves 27, not 28. *)
Lemma refill_floors_the_rounded_product :
  let cfg := {| capacity := 50; refillRate := 50;
                keyPrefix := Some "test"%string |} in
  let exhausted :=
    snd (TokenBucketDouble.consumeMany 50 0 "client1" (new cfg)) in
  let b := load 580 "client1" exhausted in
  let elapsed_seconds := (inject_Z (580 - lastRefill b) / 1000)%Q in
  let r := fst (TokenBucketDouble.consume 580 "client1" exhausted) in
  fst (TokenBucketDouble.consumeMany 50 0 "client1" (new cfg))
  = replicate 50 true
  /\ b = {| tokens := 0; lastRefill := 0 |}
  /\ Qfloor (elapsed_seconds * refillRate cfg) = 29%Z
  /\ (Double.mul (Double.div (inject_Z (580 - lastRefill b)) 1000)
                 (refillRate cfg)
      == 8162774324609023 # 281474976710656)%Q
  /\ (TokenBucketDouble.tokensToAdd exhausted 580 b == 28)%Q
  /\ allowed r = true
  /\ (remainingTokens r == 27)%Q
  /\ ~ (remainingTokens r
        == Qmin (capacity cfg)
                (tokens b
                 + inject_Z (Qfloor (elapsed_seconds * refillRate cfg)))
           - 1)%Q.
Proof.
  repeat split; try (vm_compute; reflexivity).
  vm_compute. discriminate.
Qed.

(** C2, amended.  On each [consume(key)] the refill adds
    [floor(elapsed_seconds * refillRate)] tokens as the source computes
    it: [elapsed_seconds] is the double nearest to the milliseconds
    divided by 1000, the product is rounded to the nearest double and
    then floored.  A positive count is added to the tokens and capped at
    the capacity, and the call is allowed exactly when that leaves at
    least one token.  With the clock not behind the bucket, less than
    [2^53] ms elapsed and a rate and a product of at most [2^50], the
    count is within one token of the exact
    [floor(elapsed_seconds * refillRate)]; when a whole number of seconds
    has passed and the rate is a whole number, nothing is rounded and the
    count is the exact one.  With capacity 10 and one token per
    second, once ten calls have emptied the bucket and 2000 ms have
    passed, two calls in immediate succession are allowed and a third is
    refused. *)
Theorem refill_in_double_precision :
  (forall tb now key,
      let b := load now key tb in
      let elapsed_seconds :=
        Double.div (inject_Z (now - lastRefill b)) 1000 in
      let added :=
        inject_Z (Qfloor (Double.mul elapsed_seconds
                                     (refillRate (config tb)))) in
      let available :=
        if gt added 0
        then Qmin (capacity (config tb)) (Double.add (tokens b) added)
        else tokens b in
      let r := fst (TokenBucketDouble.consume now key tb) in
      allowed r = Qle_bool 1 available
      /\ remainingTokens r
         = (if allowed r then Double.sub available 1 else available)
      /\ tokens (load now key (snd (TokenBucketDouble.consume now key tb)))
         = remainingTokens r)
  /\ (forall tb now b,
        (lastRefill b <= now < lastRefill b + 2 ^ 53)%Z ->
        (0 <= refillRate (config tb) <= inject_Z (2 ^ 50))%Q ->
        (inject_Z (now - lastRefill b) / 1000 * refillRate (config tb)
         <= inject_Z (2 ^ 50))%Q ->
        let exact :=
          Qfloor (inject_Z (now - lastRefill b) / 1000
                  * refillRate (config tb)) in
        exists added : Z,
          TokenBucketDouble.tokensToAdd tb now b = inject_Z added
          /\ (exact - 1 <= added <= exact + 1)%Z)
  /\ (forall tb now b (seconds rate : Z),
        (now - lastRefill b = 1000 * seconds)%Z ->
        (refillRate (config tb) == inject_Z rate)%Q ->
        (Z.abs (1000 * seconds) < 2 ^ 53)%Z ->
        (Z.abs (seconds * rate) < 2 ^ 53)%Z ->
        (TokenBucketDouble.tokensToAdd tb now b
         == inject_Z (Qfloor (inject_Z (now - lastRefill b) / 1000
                              * refillRate (config tb))))%Q
        /\ (TokenBucketDouble.tokensToAdd tb now b
            == inject_Z (seconds * rate))%Q)
  /\ (forall key t0,
        let cfg := {| capacity := 10; refillRate := 1;
                      keyPrefix := Some "test"%string |} in
        let exhausted :=
          snd (TokenBucketDouble.consumeMany 10 t0 key (new cfg)) in
        fst (TokenBucketDouble.consumeMany 10 t0 key (new cfg))
        = replicate 10 true
        /\ allowed (fst (TokenBucketDouble.consume t0 key exhausted)) = false
        /\ fst (TokenBucketDouble.consumeMany 3 (t0 + 2000) key exhausted)
           = [true; true; false]).
Proof.
  split; [|split; [|split; [|exact double_refill_after_two_seconds]]].
  - intros tb now key b elapsed_seconds added available r.
    assert (E : tokens (TokenBucketDouble.refill tb now b) = available).
    { unfold TokenBucketDouble.refill, available.
      fold (Math_floor (Double.mul elapsed_seconds (refillRate (config tb))))
        in added.
      change (TokenBucketDouble.tokensToAdd tb now b) with added.
      now destruct (gt added 0). }
    unfold r. rewrite double_load_consume. fold b.
    rewrite double_allowed_consume. fold b. rewrite E.
    split; [reflexivity|].
    cbn [TokenBucketDouble.consume fst remainingTokens]. fold b.
    unfold TokenBucketDouble.spend. rewrite E.
    unfold ge. now destruct (Qle_bool 1 available).
  - intros tb now b [Hl _]. now apply double_tokensToAdd_near.
  - intros tb now b seconds rate Hs Hr B1 B2.
    destruct (double_tokensToAdd_whole tb now b seconds rate Hs Hr)
      as [D X]; [lia | exact B2 |].
    split; [|exact D]. rewrite D. symmetry. exact X.
Qed.

(** The bucket of the counterexample: at 580 ms the count is within one
    of the 29 tokens of the claim, and one second after the bucket was
    emptied it is the 50 tokens of the claim. *)
Lemma refill_in_double_precision_witness :
  let tb := snd (TokenBucketDouble.consumeMany 50 0 "client1"
                   (new {| capacity := 50; refillRate := 50;
                           keyPrefix := Some "test"%string |})) in
  (exists added : Z,
      TokenBucketDouble.tokensToAdd tb 580 (load 580 "client1" tb)
      = inject_Z added
      /\ (29 - 1 <= added <= 29 + 1)%Z)
  /\ (TokenBucketDouble.tokensToAdd tb 1000 (load 1000 "client1" tb)
      == inject_Z (1 * 50))%Q.
Proof.
  intros tb. split.
  - apply (proj1 (proj2 refill_in_double_precision)
             tb 580%Z (load 580 "client1" tb)).
    + split; [vm_compute; discriminate | vm_compute; reflexivity].
    + split; vm_compute; discriminate.
    + vm_compute. discriminate.
  - apply (proj1 (proj2 (proj2 refill_in_double_precision))
             tb 1000%Z (load 1000 "client1" tb) 1%Z 50%Z).
    + reflexivity.
    + reflexivity.
    + cbn. lia.
    + cbn. lia.
Defined.

(** The retry hint in double precision.  A bucket of one token refilled
    at [1 / 161] tokens per second refuses with a hint of 161 seconds;
    161 seconds after it was emptied the product [161 * (1 / 161)] is
    0.9999999999999999, no token is added and the call is refused again;
    a second later it is allowed. *)
Example retry_hint_can_fall_short :
  let tb := new {| capacity := 1; refillRate := Double.div 1 161;
                   keyPrefix := Some "test"%string |} in
  let tb1 := snd (TokenBucketDouble.consume 0 "client1" tb) in
  let r := TokenBucketDouble.consume 0 "client1" tb1 in
  allowed (fst r) = false
  /\ retryAfterSeconds (fst r) = Some 161%Q
  /\ allowed (fst (TokenBucketDouble.consume 161000 "client1" (snd r)))
     = false
  /\ allowed (fst (TokenBucketDouble.consume 162000 "client1" (snd r)))
     = true.
Proof. vm_compute. repeat split. Qed.

End TokenBucketDoubleFacts.

(** ** The admission middleware *)

Module RateLimitMiddlewareFacts.
Import JS JSFacts RateLimitMiddleware.

(** C4. Whenever the key generator throws, or the awaited [consume]
    rejects, the handler does not throw, calls [next()] exactly once,
    logs the error and leaves the response as it found it: no header,
    no status 429 and no body is written. *)
Theorem fail_open consume config now c e :
  (default defaultKeyGenerator (keyGenerator config) (req c) = inl e
   \/ exists key,
       default defaultKeyGenerator (keyGenerator config) (req c) = inr key
       /\ fst (consume now key (bucket c)) = inl e) ->
  fst (handler consume config now c) = inr tt
  /\ nextCalls (snd (handler consume config now c)) = S (nextCalls c)
  /\ res (snd (handler consume config now c)) = res c
  /\ console (snd (handler consume config now c))
     = console c ++ [ErrorLog "Rate limiter error:" e].
Proof.
  intros [H | (key & H & Hc)];
    unfold handler, tryCatch, bind, gets, lift; cbn beta iota; rewrite H.
  - now repeat split.
  - unfold awaitConsume.
    destruct (consume now key (bucket c)) as [r b'] eqn:E.
    cbn [fst] in Hc. subst r. now repeat split.
Qed.

(** The failing key generator of the test suite, in front of the real
    bucket. *)
Lemma fail_open_witness :
  let config :=
    {| capacity := 1; refillRate := 1; keyPrefix := None;
       keyGenerator := Some (fun _ => inl (Error "Key generation failed"));
       skipFailedRequests := None; skipSuccessfulRequests := None;
       onLimitReached := None |} in
  let c :=
    {| bucket := TokenBucket.new (bucketConfig config);
       req := {| x_forwarded_for := None; x_real_ip := None;
                 user_agent := None; remoteAddress := Some "::1"%string;
                 url := "/api/test"; method := "GET"; rateLimit := None |};
       res := {| headers := ∅; statusCode := 200; body := None |};
       nextCalls := 0; console := [] |} in
  fst (handler bucketConsume config 0 c) = inr tt
  /\ nextCalls (snd (handler bucketConsume config 0 c)) = 1%nat
  /\ res (snd (handler bucketConsume config 0 c))
     = {| headers := ∅; statusCode := 200; body := None |}
  /\ console (snd (handler bucketConsume config 0 c))
     = [ErrorLog "Rate limiter error:" (Error "Key generation failed")].
Proof.
  intros config c.
  apply (fail_open bucketConsume config 0 c (Error "Key generation failed")).
  left. reflexivity.
Defined.

Lemma validation_guard (c r : Q) :
  Qle_bool c 0 || Qle_bool r 0 = true <-> (c <= 0)%Q \/ (r <= 0)%Q.
Proof. now rewrite orb_true_iff, !Qle_bool_iff. Qed.

(** The bucket in front of a handler: with one token, the first request
    of a client goes on to [next()], the second at the same instant is
    answered with 429 and does not go on. *)
Example one_token_one_request :
  let config :=
    {| capacity := 1; refillRate := 1; keyPrefix := Some "test"%string;
       keyGenerator := None; skipFailedRequests := None;
       skipSuccessfulRequests := None; onLimitReached := None |} in
  let c0 :=
    {| bucket := TokenBucket.new (bucketConfig config);
       req := {| x_forwarded_for := Some "10.0.0.1, 10.0.0.2"%string;
                 x_real_ip := None; user_agent := None;
                 remoteAddress := Some "::1"%string;
                 url := "/api/test"; method := "GET"; rateLimit := None |};
       res := {| headers := ∅; statusCode := 200; body := None |};
       nextCalls := 0; console := [] |} in
  let c1 := snd (handler bucketConsume config 0 c0) in
  let c2 := snd (handler bucketConsume config 0 c1) in
  (nextCalls c1, statusCode (res c1),
   headers (res c1) !! "X-RateLimit-Remaining"%string)
  = (1%nat, 200%Z, Some (VNumber 0))
  /\ TokenBucket.storage (bucket c1) !! "test:10.0.0.1"%string
     = Some {| TokenBucket.tokens := 0; TokenBucket.lastRefill := 0 |}
  /\ (nextCalls c2, statusCode (res c2),
      headers (res c2) !! "Retry-After"%string)
     = (1%nat, 429%Z, Some (VNumber 1))
  /\ console c2 = [Warn "Rate limit exceeded for key" "10.0.0.1"].
Proof. vm_compute. repeat split. Qed.

(** C10, as stated: it fails.  [createRateLimitMiddleware], and the
    [TokenBucket] constructor under it, accept a capacity of zero. *)
Lemma unvalidated_construction :
  let cfg :=
    {| capacity := 0; refillRate := 1; keyPrefix := None;
       keyGenerator := None; skipFailedRequests := None;
       skipSuccessfulRequests := None; onLimitReached := None |} in
  (capacity cfg <= 0)%Q
  /\ createRateLimitMiddleware cfg
     = inr {| limiterConfig := cfg;
              limiterBucket :=
                {| TokenBucket.config :=
                     {| TokenBucket.capacity := 0;
                        TokenBucket.refillRate := 1;
                        TokenBucket.keyPrefix := Some "rate_limit"%string |};
                   TokenBucket.storage := ∅ |} |}.
Proof. split; [discriminate | reflexivity]. Qed.

(** C10, amended.  [createConfiguredRateLimiter] throws exactly when the
    capacity or the refill rate of the merged configuration is not
    positive, and otherwise returns the limiter built from that
    configuration; [createRateLimitMiddleware] itself never throws. *)
Theorem configured_limiter_validation env o :
  (failed (createConfiguredRateLimiter env o)
   <-> (capacity (configured env o) <= 0)%Q
       \/ (refillRate (configured env o) <= 0)%Q)
  /\ ((0 < capacity (configured env o))%Q
      /\ (0 < refillRate (configured env o))%Q
      -> createConfiguredRateLimiter env o
         = inr {| limiterConfig := configured env o;
                  limiterBucket :=
                    TokenBucket.new (bucketConfig (configured env o)) |})
  /\ (forall cfg, ~ failed (createRateLimitMiddleware cfg)).
Proof.
  unfold createConfiguredRateLimiter.
  destruct (Qle_bool (capacity (configured env o)) 0
            || Qle_bool (refillRate (configured env o)) 0) eqn:G.
  - apply validation_guard in G. repeat split.
    + intros _. exact G.
    + intros [H1 H2]. destruct G; lra.
    + intros cfg H. exact H.
  - assert (N : ~ ((capacity (configured env o) <= 0)%Q
                   \/ (refillRate (configured env o) <= 0)%Q)).
    { rewrite <- validation_guard, G. discriminate. }
    repeat split.
    + intros H. destruct H.
    + intros H. now destruct N.
    + intros cfg H. exact H.
Qed.

Lemma configured_limiter_validation_witness :
  failed (createConfiguredRateLimiter
            {| RATE_LIMIT_CAPACITY := Some 0%Q;
               RATE_LIMIT_REFILL_RATE := Some 2%Q;
               RATE_LIMIT_KEY_PREFIX := None |} noOverrides)
  /\ createConfiguredRateLimiter
       {| RATE_LIMIT_CAPACITY := Some 5%Q;
          RATE_LIMIT_REFILL_RATE := Some 2%Q;
          RATE_LIMIT_KEY_PREFIX := None |} noOverrides
     = inr {| limiterConfig :=
                configured {| RATE_LIMIT_CAPACITY := Some 5%Q;
                              RATE_LIMIT_REFILL_RATE := Some 2%Q;
                              RATE_LIMIT_KEY_PREFIX := None |} noOverrides;
              limiterBucket :=
                TokenBucket.new
                  (bucketConfig
                     (configured {| RATE_LIMIT_CAPACITY := Some 5%Q;
                                    RATE_LIMIT_REFILL_RATE := Some 2%Q;
                                    RATE_LIMIT_KEY_PREFIX := None |}
                                 noOverrides)) |}.
Proof.
  split.
  - apply (proj1 (configured_limiter_validation _ _)).
    left. discriminate.
  - apply (proj1 (proj2 (configured_limiter_validation _ _))).
    split; reflexivity.
Defined.

End RateLimitMiddlewareFacts.

(** ** The scalability monitor *)

Module ScalabilityMonitorFacts.
Import JS JSFacts ScalabilityMonitor.

(** *** The rolling buffer *)

Lemma requestMetrics_cleanup m :
  requestMetrics (cleanupOldConnections m) = requestMetrics m.
Proof.
  unfold cleanupOldConnections.
  now destruct (Z.of_nat (length (requestMetrics m)) mod 1000 =? 0)%Z.
Qed.

(** [slice(-n)] keeps the last [n] elements of a longer array. *)
Lemma slice_last {A} (n : Z) (l : list A) :
  (0 < n <= Z.of_nat (length l))%Z ->
  Z.of_nat (length (slice (- n) l)) = n
  /\ exists older, l = older ++ slice (- n) l.
Proof.
  intros Hn. unfold slice.
  replace (- n <? 0)%Z with true by (symmetry; apply Z.ltb_lt; lia).
  rewrite Z.max_l by lia. split.
  - rewrite length_drop. lia.
  - eexists. symmetry. apply take_drop.
Qed.

(** C8. After [recordRequest] the buffer holds at most 10000 records.
    When the appended buffer is longer than that, exactly its last 5000
    records are kept, in the order they had; otherwise the appended
    buffer is kept whole. *)
Theorem buffer_bounded now responseTime statusCode clientId m :
  let pushed :=
    requestMetrics m ++
    [{| timestamp := now; rm_responseTime := responseTime;
        status := statusCode |}] in
  let kept :=
    requestMetrics (recordRequest now responseTime statusCode clientId m) in
  (Z.of_nat (length kept) <= 10000)%Z
  /\ ((10000 < Z.of_nat (length pushed))%Z ->
      Z.of_nat (length kept) = 5000%Z
      /\ exists older, pushed = older ++ kept)
  /\ ((Z.of_nat (length pushed) <= 10000)%Z -> kept = pushed).
Proof.
  intros pushed kept. unfold kept, recordRequest.
  rewrite requestMetrics_cleanup. cbn [requestMetrics]. fold pushed.
  destruct (Z.of_nat (length pushed) >? 10000)%Z eqn:G.
  - apply Z.gtb_lt in G.
    destruct (slice_last 5000 pushed) as [Hlen Hsuffix]; [lia|].
    change (- (5000))%Z with (-5000)%Z in *.
    split; [lia|]. split; [intros _; now split | intros H; lia].
  - assert (Z.of_nat (length pushed) <= 10000)%Z.
    { rewrite Z.gtb_ltb in G. apply Z.ltb_ge in G. exact G. }
    split; [lia|]. split; [intros H'; lia | reflexivity].
Qed.

(** A buffer that is full when one more record arrives. *)
Lemma buffer_bounded_witness :
  let r := {| timestamp := 0; rm_responseTime := 12; status := 200 |} in
  let m := {| requestMetrics := replicate (Z.to_nat 10000) r;
              startTime := 0; activeConnections := ∅ |} in
  Z.of_nat (length (requestMetrics (recordRequest 7 30 500 None m)))
  = 5000%Z
  /\ exists older,
      requestMetrics m
        ++ [{| timestamp := 7; rm_responseTime := 30; status := 500 |}]
      = older ++ requestMetrics (recordRequest 7 30 500 None m).
Proof.
  intros r m.
  apply (proj1 (proj2 (buffer_bounded 7 30 500 None m))).
  cbn [requestMetrics m]. rewrite length_app, length_replicate. cbn. lia.
Defined.

(** *** [getPerformanceMetrics] *)

Lemma divide_defined (a b : Q) :
  ~ (b == 0)%Q -> divide a b = Some (a / b)%Q.
Proof.
  intros H. unfold divide. destruct (Qeq_bool b 0) eqn:E; [|reflexivity].
  now apply Qeq_bool_iff in E.
Qed.

Lemma round2_defined (x : Q) :
  round2 x = Some (Math_round (x * 100) / 100)%Q.
Proof. reflexivity. Qed.

Lemma length_insertSorted x l : length (insertSorted x l) = S (length l).
Proof.
  induction l as [|y l IH]; [reflexivity|]. cbn [insertSorted].
  destruct (Qle_bool y x); cbn [length]; now rewrite ?IH.
Qed.

Lemma length_sortAscending l : length (sortAscending l) = length l.
Proof.
  unfold sortAscending.
  enough (H : forall acc,
             length (foldl (fun acc x => insertSorted x acc) acc l)
             = (length acc + length l)%nat) by apply (H []).
  induction l as [|x l IH]; intros acc; cbn [foldl length]; [lia|].
  rewrite IH, length_insertSorted. lia.
Qed.

Lemma size_nonzero {A} (l : list A) : l <> [] -> ~ (size l == 0)%Q.
Proof.
  intros Hl H. unfold size, Qeq in H. cbn [Qnum Qden inject_Z] in H.
  destruct l; [congruence | cbn [length] in H; lia].
Qed.

(** Every divisor of [getPerformanceMetrics] is a length that was tested
    or a literal. *)
Lemma getPerformanceMetrics_defined now m :
  is_Some (getPerformanceMetrics now m).
Proof.
  unfold getPerformanceMetrics.
  set (recent := filter _ (requestMetrics m)).
  destruct (Z.of_nat (length recent) =? 0)%Z eqn:E; [now eexists|].
  apply Z.eqb_neq in E.
  assert (Hrecent : recent <> []) by (intros H; now rewrite H in E).
  assert (Hsorted : sortAscending (rm_responseTime <$> recent) <> []).
  { intros H. apply (f_equal length) in H.
    rewrite length_sortAscending, length_fmap in H. cbn in H. lia. }
  rewrite (divide_defined _ _ (size_nonzero _ Hsorted)). cbn [mbind option_bind].
  rewrite (divide_defined _ 60) by discriminate. cbn [mbind option_bind].
  rewrite (divide_defined _ _ (size_nonzero _ Hrecent)).
  cbn [mbind option_bind].
  rewrite !round2_defined. cbn [mbind option_bind]. now eexists.
Qed.

(** C7. When no record is younger than one minute, the result is the
    structure of zeros; and whatever the buffer holds, no division of
    [getPerformanceMetrics] has a zero divisor, so a result is always
    returned. *)
Theorem empty_window_all_zero now m :
  (filter (fun r => (now - 60 * 1000 < timestamp r)%Z) (requestMetrics m)
   = [] ->
   getPerformanceMetrics now m
   = Some {| responseTime := {| avg := 0; p95 := 0; p99 := 0 |};
             throughput := {| requestsPerSecond := 0;
                              requestsPerMinute := 0 |};
             errors := {| rate := 0; count := 0 |} |})
  /\ is_Some (getPerformanceMetrics now m).
Proof.
  split; [|apply getPerformanceMetrics_defined].
  intros H. unfold getPerformanceMetrics. rewrite H. reflexivity.
Qed.

Lemma empty_window_all_zero_witness :
  let m := recordRequest 1000 (25 # 2) 200 (Some "10.0.0.1"%string)
             (new 0) in
  getPerformanceMetrics 70000 m
  = Some {| responseTime := {| avg := 0; p95 := 0; p99 := 0 |};
            throughput := {| requestsPerSecond := 0;
                             requestsPerMinute := 0 |};
            errors := {| rate := 0; count := 0 |} |}.
Proof.
  intros m. apply (proj1 (empty_window_all_zero 70000 m)). reflexivity.
Defined.

(** *** The assessment *)

Lemma score_assessDatabase m a :
  acc_score (assessDatabase m a)
  = (acc_score a
     - tier (databaseSize (database m) / (1024 * 1024 * 1024)) 1 5 15 30)%Z.
Proof.
  unfold assessDatabase, tier.
  destruct (gt _ 5); [|destruct (gt _ 1)]; cbn; lia.
Qed.

Lemma score_assessPerformance m a :
  acc_score (assessPerformance m a)
  = (acc_score a - tier (p95 (responseTime (performance m))) 200 500 10 25)%Z.
Proof.
  unfold assessPerformance, tier.
  destruct (gt _ 500); [|destruct (gt _ 200)]; cbn; lia.
Qed.

Lemma score_assessThroughput m a :
  acc_score (assessThroughput m a)
  = (acc_score a
     - tier (requestsPerSecond (throughput (performance m))) 100 500 5 20)%Z.
Proof.
  unfold assessThroughput, tier.
  destruct (gt _ 500); [|destruct (gt _ 100)]; cbn; lia.
Qed.

Lemma score_assessErrors m a :
  acc_score (assessErrors m a)
  = (acc_score a - tier (rate (errors (performance m))) 1 5 10 25)%Z.
Proof.
  unfold assessErrors, tier.
  destruct (gt _ 5); [|destruct (gt _ 1)]; cbn; lia.
Qed.

Lemma score_assessMemory m a :
  acc_score (assessMemory m a)
  = (acc_score a - tier (usage (memory (system m))) 80 90 5 20)%Z.
Proof.
  unfold assessMemory, tier.
  destruct (gt _ 90); [|destruct (gt _ 80)]; cbn; lia.
Qed.

Lemma tier_range x low high small large :
  (0 <= small)%Z -> (0 <= large)%Z ->
  (0 <= tier x low high small large)%Z.
Proof. intros. unfold tier. destruct (gt x high), (gt x low); lia. Qed.

Lemma statusOf_clamped s : statusOf (Z.max 0 s) = statusOf s.
Proof.
  unfold statusOf.
  destruct (80 <=? s)%Z eqn:A, (60 <=? s)%Z eqn:B,
           (80 <=? Z.max 0 s)%Z eqn:C, (60 <=? Z.max 0 s)%Z eqn:D;
    try reflexivity; lia.
Qed.

(** C5, as stated: it fails.  With a database of 6 GB and every other
    gauge at zero both database rules apply; firing both gives 55 and
    red, the source deducts 30 only and answers 70 and yellow. *)
Lemma both_tiers_do_not_fire :
  let m := snapshot (6 * 1024 * 1024 * 1024) 0 0 0 0 in
  score (getScalabilityAssessment m) = 70%Z
  /\ a_status (getScalabilityAssessment m) = yellow
  /\ statedScore m = 55%Z
  /\ statusOf (statedScore m) = red.
Proof. vm_compute. repeat split. Qed.

(** C5, amended.  The score starts at 100; each of the five metrics
    deducts for the highest threshold it exceeds only (30 or 15 for the
    database size, 25 or 10 for p95, 20 or 5 for the throughput, 25 or 10
    for the error rate, 20 or 5 for the memory usage), and the
    deductions of different metrics add up.  The result is clamped to
    [[0, 100]]; the status is green from 80, yellow from 60 and red
    below. *)
Theorem assessment_score m :
  let dbSizeGB := (databaseSize (database m) / (1024 * 1024 * 1024))%Q in
  let p := p95 (responseTime (performance m)) in
  let rps := requestsPerSecond (throughput (performance m)) in
  let err := rate (errors (performance m)) in
  let mem := usage (memory (system m)) in
  let a := getScalabilityAssessment m in
  score a
  = Z.max 0 (100 - tier dbSizeGB 1 5 15 30 - tier p 200 500 10 25
             - tier rps 100 500 5 20 - tier err 1 5 10 25
             - tier mem 80 90 5 20)%Z
  /\ (0 <= score a <= 100)%Z
  /\ a_status a = (if (80 <=? score a)%Z then green
                  else if (60 <=? score a)%Z then yellow else red).
Proof.
  intros dbSizeGB p rps err mem a.
  assert (E : score a
              = Z.max 0 (100 - tier dbSizeGB 1 5 15 30
                         - tier p 200 500 10 25 - tier rps 100 500 5 20
                         - tier err 1 5 10 25 - tier mem 80 90 5 20)%Z).
  { unfold a, getScalabilityAssessment. cbn [score].
    rewrite score_assessMemory, score_assessErrors, score_assessThroughput,
      score_assessPerformance, score_assessDatabase. reflexivity. }
  split; [exact E|]. split.
  - rewrite E.
    pose proof (tier_range dbSizeGB 1 5 15 30).
    pose proof (tier_range p 200 500 10 25).
    pose proof (tier_range rps 100 500 5 20).
    pose proof (tier_range err 1 5 10 25).
    pose proof (tier_range mem 80 90 5 20). lia.
  - unfold a, getScalabilityAssessment. cbn [a_status score].
    fold (statusOf (acc_score
            (assessMemory m (assessErrors m (assessThroughput m
               (assessPerformance m (assessDatabase m
                  {| acc_score := 100; acc_recommendations := [];
                     acc_alerts := [] |}))))))).
    rewrite <- statusOf_clamped. reflexivity.
Qed.

End ScalabilityMonitorFacts.

(** * Further properties *)

(** ** The token bucket: keys, reset, status and the retry hint *)

Module TokenBucketMore.
Import JS JSFacts TokenBucket TokenBucketFacts.

Lemma append_inj_r (p a b : string) : (p +:+ a = p +:+ b)%string -> a = b.
Proof.
  induction p as [|c p IH]; cbn; intros H; [exact H|].
  injection H as H. now apply IH.
Qed.

Lemma bucketKey_inj tb k1 k2 : bucketKey tb k1 = bucketKey tb k2 -> k1 = k2.
Proof.
  unfold bucketKey. intros H.
  apply append_inj_r in H. now apply append_inj_r in H.
Qed.

Lemma load_consume_other now now' k1 k2 tb :
  k1 <> k2 ->
  load now' k2 (snd (consume now k1 tb)) = load now' k2 tb.
Proof.
  intros Hk. unfold load. rewrite bucketKey_consume.
  cbn [consume snd storage]. rewrite lookup_insert_ne; [reflexivity|].
  intros H. apply Hk. now apply bucketKey_inj in H.
Qed.

(** The result of a call is a function of the configuration and of the
    bucket the call loads. *)
Lemma consume_result now key tb tb' :
  config tb' = config tb -> load now key tb' = load now key tb ->
  fst (consume now key tb') = fst (consume now key tb).
Proof.
  intros Hc Hl. unfold consume. cbn [fst].
  unfold refill, tokensToAdd. rewrite Hc, Hl. reflexivity.
Qed.

Lemma getStatus_result now key tb tb' :
  config tb' = config tb -> load now key tb' = load now key tb ->
  fst (getStatus now key tb') = fst (getStatus now key tb).
Proof.
  intros Hc Hl. unfold getStatus. cbn [fst].
  unfold tokensToAdd. rewrite Hc, Hl. reflexivity.
Qed.

(** X1. A [consume] for one client key changes no other key's entry:
    what [getStatus] and [consume] then answer for a different key is
    what they would have answered without it. *)
Theorem key_isolation now now' k1 k2 tb :
  k1 <> k2 ->
  storage (snd (consume now k1 tb)) !! bucketKey tb k2
  = storage tb !! bucketKey tb k2
  /\ fst (getStatus now' k2 (snd (consume now k1 tb)))
     = fst (getStatus now' k2 tb)
  /\ fst (consume now' k2 (snd (consume now k1 tb)))
     = fst (consume now' k2 tb).
Proof.
  intros Hk. split; [|split].
  - cbn [consume snd storage]. apply lookup_insert_ne.
    intros H. apply Hk. now apply bucketKey_inj in H.
  - apply getStatus_result; [reflexivity | now apply load_consume_other].
  - apply consume_result; [reflexivity | now apply load_consume_other].
Qed.

Lemma key_isolation_witness :
  let tb := new {| capacity := 3; refillRate := 1; keyPrefix := None |} in
  storage (snd (consume 0 "client1" tb)) !! bucketKey tb "client2"
  = storage tb !! bucketKey tb "client2"
  /\ fst (getStatus 5 "client2" (snd (consume 0 "client1" tb)))
     = fst (getStatus 5 "client2" tb)
  /\ fst (consume 5 "client2" (snd (consume 0 "client1" tb)))
     = fst (consume 5 "client2" tb).
Proof. intros tb. apply key_isolation. discriminate. Defined.

(** *** [reset] *)

Lemma status_of_full now key tb :
  storage tb !! bucketKey tb key = None ->
  (status_remainingTokens (fst (getStatus now key tb))
   == capacity (config tb))%Q.
Proof.
  intros H. unfold getStatus. cbn [fst status_remainingTokens].
  unfold load. rewrite H.
  assert (E : (tokensToAdd tb now {| tokens := capacity (config tb);
                                     lastRefill := now |} == 0)%Q)
    by now apply tokensToAdd_same_instant.
  cbn [tokens].
  destruct (min_cases (capacity (config tb))
              (capacity (config tb)
               + tokensToAdd tb now {| tokens := capacity (config tb);
                                       lastRefill := now |}))
    as [[Hle E'] | [Hle E']]; rewrite E'; lra.
Qed.

(** X2. After [reset(key)] for a key that is not the empty string,
    [getStatus(key)] reports the full capacity, the next [consume(key)]
    is decided as for a first request, and the entries of the other keys
    are kept; [reset()] and, the empty string being falsy, [reset('')]
    drop every entry. *)
Theorem reset_restores_capacity now key tb :
  key <> ""%string ->
  (status_remainingTokens (fst (getStatus now key (reset (Some key) tb)))
   == capacity (config tb))%Q
  /\ (allowed (fst (consume now key (reset (Some key) tb)))
      = ge (capacity (config tb)) 1)
  /\ (forall other, other <> key ->
        storage (reset (Some key) tb) !! bucketKey tb other
        = storage tb !! bucketKey tb other)
  /\ storage (reset None tb) = ∅
  /\ storage (reset (Some ""%string) tb) = ∅.
Proof.
  intros Hk.
  assert (Hr : reset (Some key) tb
               = {| config := config tb;
                    storage := delete (bucketKey tb key) (storage tb) |}).
  { unfold reset. destruct (String.eqb_spec key ""); [contradiction|].
    reflexivity. }
  assert (Hnone : storage (reset (Some key) tb)
                    !! bucketKey (reset (Some key) tb) key = None).
  { rewrite Hr. cbn [storage]. apply lookup_delete_eq. }
  split; [|split; [|split; [|split]]].
  - rewrite (status_of_full now key _ Hnone). now rewrite Hr.
  - rewrite allowed_consume. unfold load. rewrite Hnone.
    rewrite refill_same_instant by reflexivity. now rewrite Hr.
  - intros other Ho. rewrite Hr. cbn [storage]. apply lookup_delete_ne.
    intros H. apply Ho. symmetry. now apply bucketKey_inj in H.
  - reflexivity.
  - reflexivity.
Qed.

Lemma reset_restores_capacity_witness :
  let tb := snd (consumeMany 3 0 "client1"
                   (new {| capacity := 3; refillRate := 1;
                           keyPrefix := None |})) in
  (status_remainingTokens (fst (getStatus 0 "client1"
                                  (reset (Some "client1"%string) tb)))
   == capacity (config tb))%Q.
Proof.
  intros tb.
  apply (proj1 (reset_restores_capacity 0 "client1" tb ltac:(discriminate))).
Defined.

(** *** A capacity below one token *)

Lemma capped_consume now key tb : capped tb -> capped (snd (consume now key tb)).
Proof.
  intros Hc. unfold capped. cbn [consume snd config storage].
  apply map_Forall_insert_2; [|exact Hc].
  assert (Hl : (tokens (load now key tb) <= capacity (config tb))%Q).
  { unfold load. destruct (storage tb !! bucketKey tb key) as [b|] eqn:E;
      [exact (Hc _ _ E) | cbn; lra]. }
  assert (Hr : (tokens (refill tb now (load now key tb))
                <= capacity (config tb))%Q).
  { unfold refill. destruct (gt _ 0); [|exact Hl]. cbn [tokens].
    apply Q.le_min_l. }
  destruct (tokens_spend (refill tb now (load now key tb)))
    as [[G E] | [G E]]; rewrite E; lra.
Qed.

Lemma capped_step w o : capped (limiter w) -> capped (limiter (step w o)).
Proof.
  intros Hc. destruct o as [k|k|k|ms]; cbn [step limiter].
  - now apply capped_consume.
  - exact Hc.
  - unfold capped, reset.
    destruct k as [k|]; [destruct (String.eqb k "")|]; cbn [storage config];
      try apply map_Forall_empty.
    now apply map_Forall_delete.
  - exact Hc.
Qed.

Lemma capped_run ops w : capped (limiter w) -> capped (limiter (run ops w)).
Proof.
  revert w. induction ops as [|o ops IH]; intros w Hc; [exact Hc|].
  cbn. change (foldl step (step w o) ops) with (run ops (step w o)).
  now apply IH, capped_step.
Qed.

(** X3. A bucket constructed with a capacity below one token (which the
    constructor accepts) never allows a request, in any run and for any
    key. *)
Theorem small_capacity_admits_nothing cfg t0 ops key :
  (capacity cfg < 1)%Q ->
  let w := run ops (fresh cfg t0) in
  allowed (fst (consume (clock w) key (limiter w))) = false.
Proof.
  intros Hcap w.
  assert (Hc : capped (limiter w)).
  { apply capped_run. unfold capped. cbn. apply map_Forall_empty. }
  assert (Hcfg : capacity (config (limiter w)) = capacity cfg)
    by (unfold w; now rewrite config_run).
  pose proof (capped_consume (clock w) key (limiter w) Hc) as Hc'.
  rewrite allowed_consume. apply ge_false.
  assert (Hl : (tokens (load (clock w) key (limiter w))
                <= capacity (config (limiter w)))%Q).
  { unfold load.
    destruct (storage (limiter w) !! bucketKey (limiter w) key) as [b|] eqn:E;
      [exact (Hc _ _ E) | cbn; lra]. }
  assert (Hr : (tokens (refill (limiter w) (clock w)
                          (load (clock w) key (limiter w)))
                <= capacity (config (limiter w)))%Q).
  { unfold refill. destruct (gt _ 0); [|exact Hl]. cbn [tokens].
    apply Q.le_min_l. }
  rewrite Hcfg in Hr. lra.
Qed.

Lemma small_capacity_admits_nothing_witness :
  let cfg := {| capacity := 0; refillRate := 1; keyPrefix := None |} in
  let w := run [OpConsume "a"; OpAdvance 60000] (fresh cfg 0) in
  allowed (fst (consume (clock w) "a" (limiter w))) = false.
Proof.
  apply (small_capacity_admits_nothing
           {| capacity := 0; refillRate := 1; keyPrefix := None |}).
  reflexivity.
Defined.

(** *** Runs from a fresh bucket *)

Lemma reachable cfg t0 ops :
  (0 < capacity cfg)%Q -> forwardOnly ops ->
  let w := run ops (fresh cfg t0) in
  config (limiter w) = config (new cfg)
  /\ invariant (limiter w) /\ timely w.
Proof.
  intros Hc Hf w. split; [|split].
  - unfold w. now rewrite config_run.
  - apply invariant_run; [cbn; lra | apply invariant_new].
  - apply timely_run; [exact Hf|]. unfold timely. cbn.
    apply map_Forall_empty.
Qed.

(** X4. In a run from a fresh bucket with positive capacity and rate and
    a clock that does not go back, the [remainingTokens] that [getStatus]
    reports lies in [[0, capacity]], and a [consume] at the same instant
    is allowed exactly when it is at least one and then leaves one token
    less. *)
Theorem status_predicts_consume cfg t0 ops key :
  (0 < capacity cfg)%Q -> (0 < refillRate cfg)%Q -> forwardOnly ops ->
  let w := run ops (fresh cfg t0) in
  let s := status_remainingTokens
             (fst (getStatus (clock w) key (limiter w))) in
  let r := fst (consume (clock w) key (limiter w)) in
  (0 <= s <= capacity cfg)%Q
  /\ allowed r = ge s 1
  /\ (remainingTokens r == if allowed r then s - 1 else s)%Q.
Proof.
  intros Hcap Hrate Hf w s r.
  destruct (reachable cfg t0 ops Hcap Hf) as (Hcfg & Hi & Ht).
  fold w in Hcfg, Hi, Ht.
  set (b := load (clock w) key (limiter w)).
  assert (Hs : settled (capacity (config (limiter w))) b).
  { apply settled_load; [rewrite Hcfg; cbn; lra | exact Hi]. }
  assert (E : (tokens (refill (limiter w) (clock w) b) == s)%Q).
  { rewrite refill_exact.
    - reflexivity.
    - rewrite Hcfg. cbn. lra.
    - now apply timely_load.
    - exact (proj2 (proj1 Hs)). }
  assert (Hsr : settled (capacity (config (limiter w)))
                        (refill (limiter w) (clock w) b))
    by now apply settled_refill.
  split; [|split].
  - destruct Hsr as [[H0 H1] _]. rewrite Hcfg in H1. cbn in H1. lra.
  - unfold r. rewrite allowed_consume. fold b. now apply ge_proper.
  - unfold r. rewrite allowed_consume, remaining_consume. fold b.
    rewrite (ge_proper _ _ 1 E).
    destruct (tokens_spend (refill (limiter w) (clock w) b))
      as [[G E'] | [G E']]; rewrite (ge_proper _ _ 1 E) in G;
      rewrite G, E', E; reflexivity.
Qed.

Lemma status_predicts_consume_witness :
  let cfg := {| capacity := 3; refillRate := 1 # 2; keyPrefix := None |} in
  let w := run [OpConsume "a"; OpConsume "a"; OpAdvance 4500]
               (fresh cfg 0) in
  let s := status_remainingTokens
             (fst (getStatus (clock w) "a" (limiter w))) in
  let r := fst (consume (clock w) "a" (limiter w)) in
  (0 <= s <= capacity cfg)%Q
  /\ allowed r = ge s 1
  /\ (remainingTokens r == if allowed r then s - 1 else s)%Q.
Proof.
  apply status_predicts_consume;
    [reflexivity | reflexivity | repeat constructor; lia].
Defined.

(** *** The retry hint *)

(** X5. With a positive refill rate, [consume] answers a
    [retryAfterSeconds] exactly on the calls it refuses: an allowed call
    carries none; a refused call leaves less than one token and carries a
    whole number of seconds that is at least one, so the hint is never
    zero and never falsy. *)
Theorem retry_hint_when_refused now key tb :
  (0 < refillRate (config tb))%Q ->
  let r := fst (consume now key tb) in
  match retryAfterSeconds r with
  | None => allowed r = true
  | Some s =>
      allowed r = false
      /\ (remainingTokens r < 1)%Q
      /\ truthy s = true
      /\ exists z : Z, s = inject_Z z /\ (1 <= z)%Z
  end.
Proof.
  intros Hrate r. unfold r, consume. cbn [fst retryAfterSeconds allowed
    remainingTokens].
  set (br := refill tb now (load now key tb)).
  destruct (ge (tokens br) 1) eqn:G; [reflexivity|].
  assert (Hsp : spend br = br) by (unfold spend; now rewrite G).
  rewrite Hsp. apply ge_false in G.
  set (x := ((1 - tokens br) / refillRate (config tb))%Q).
  assert (Hx : (x * refillRate (config tb) == 1 - tokens br)%Q).
  { unfold x. field. lra. }
  assert (Hxpos : (0 < x)%Q).
  { destruct (Qlt_le_dec 0 x) as [H|H]; [exact H|].
    assert ((x * refillRate (config tb) <= 0 * refillRate (config tb))%Q)
      by (apply Qmult_le_compat_r; lra).
    lra. }
  assert (Hceil : (x <= inject_Z (Qceiling x))%Q) by apply Qle_ceiling.
  assert (Hz : (1 <= Qceiling x)%Z).
  { assert (H : (0 < inject_Z (Qceiling x))%Q) by lra.
    change 0%Q with (inject_Z 0) in H. rewrite <- Zlt_Qlt in H. lia. }
  split; [reflexivity|]. split; [exact G|]. split.
  - unfold truthy, Math_ceil. apply negb_true_iff.
    apply not_true_iff_false. intros E. apply Qeq_bool_iff in E.
    unfold Qeq in E. cbn in E. fold x in E. lia.
  - exists (Qceiling x). split; [reflexivity | exact Hz].
Qed.

Lemma retry_hint_when_refused_witness :
  let tb := snd (consume 0 "a"
                   (new {| capacity := 1; refillRate := 1 # 60;
                           keyPrefix := None |})) in
  let r := fst (consume 1500 "a" tb) in
  match retryAfterSeconds r with
  | None => allowed r = true
  | Some s =>
      allowed r = false
      /\ (remainingTokens r < 1)%Q
      /\ truthy s = true
      /\ exists z : Z, s = inject_Z z /\ (1 <= z)%Z
  end.
Proof.
  intros tb.
  apply (retry_hint_when_refused 1500 "a"%string tb). reflexivity.
Defined.

End TokenBucketMore.

(** ** The middleware: keys, decisions, hooks and profiles *)

Module RateLimitMiddlewareMore.
Import JS JSFacts RateLimitMiddleware.

(** *** The default key *)

Lemma firstSegment_prefix s :
  s = firstSegment s
  \/ exists rest, s = (firstSegment s +:+ "," +:+ rest)%string.
Proof.
  induction s as [|c s IH]; [now left|]. cbn [firstSegment].
  destruct (Ascii.eqb_spec c ","%char) as [->|Hc].
  - right. now exists s.
  - destruct IH as [IH | [rest IH]].
    + left. now rewrite <- IH.
    + right. exists rest.
      change (String c s
              = String c (firstSegment s +:+ "," +:+ rest)%string).
      now f_equal.
Qed.

Lemma orElse_nonempty a b s :
  orElse a b = Some s -> (forall t, b = Some t -> t <> ""%string) ->
  s <> ""%string.
Proof.
  unfold orElse. destruct a as [x|].
  - destruct (String.eqb_spec x ""); intros H Hb.
    + now apply Hb.
    + congruence.
  - intros H Hb. now apply Hb.
Qed.

(** X6. The default key generator does not throw and never yields the
    empty string.  When the forwarded-for header has a first value that
    is not empty, that value (the text before the first comma) is the
    key; with no header and no peer address the key is ['unknown']. *)
Theorem defaultKeyGenerator_key r :
  exists key,
    defaultKeyGenerator r = inr key
    /\ key <> ""%string
    /\ (forall xff, x_forwarded_for r = Some xff ->
         firstSegment xff <> ""%string ->
         key = firstSegment xff
         /\ (xff = key
             \/ exists rest, xff = (key +:+ "," +:+ rest)%string))
    /\ (x_forwarded_for r = None -> x_real_ip r = None ->
        remoteAddress r = None -> key = "unknown"%string).
Proof.
  unfold defaultKeyGenerator.
  set (k := orElse _ (Some "unknown"%string)).
  assert (Hk : exists key, k = Some key /\ key <> ""%string).
  { unfold k, orElse at 1.
    destruct (orElse _ (remoteAddress r)) as [x|]; [|now eexists].
    destruct (String.eqb_spec x ""); eexists; split; eauto; discriminate. }
  destruct Hk as (key & Hk & Hne). exists key. rewrite Hk. cbn [default].
  split; [reflexivity|]. split; [exact Hne|]. split.
  - intros xff Hx Hseg. unfold k in Hk. rewrite Hx in Hk. cbn in Hk.
    destruct (String.eqb_spec (firstSegment xff) ""); [contradiction|].
    cbn in Hk. destruct (String.eqb_spec (firstSegment xff) "");
      [contradiction|]. cbn in Hk.
    destruct (String.eqb_spec (firstSegment xff) ""); [contradiction|].
    assert (E : key = firstSegment xff) by congruence.
    split; [exact E|]. rewrite E. apply firstSegment_prefix.
  - intros H1 H2 H3. unfold k in Hk. rewrite H1, H2, H3 in Hk.
    cbn in Hk. congruence.
Qed.

(** *** Admitting and rejecting *)

(** X7. With a key, no [onLimitReached] hook and a refill rate that is
    not zero, the handler does not throw, stores the bucket [consume]
    returns and sets the limit and remaining headers.  An allowed request
    goes on to [next()] with status and body untouched.  A refused one
    whose reset time is a valid date is answered with status 429 and the
    rejection body and does not go on.  A refused one whose reset time
    lies outside the range of [Date] makes [toISOString] throw after the
    status was set: the [catch] logs the error and calls [next()], the
    status stays 429 and no body is written.  (With a rate of zero the
    reset time is infinite, which the rationals do not hold.) *)
Theorem handler_decides config now c key :
  default defaultKeyGenerator (keyGenerator config) (req c) = inr key ->
  onLimitReached config = None ->
  ~ (TokenBucket.refillRate (TokenBucket.config (bucket c)) == 0)%Q ->
  let r := fst (TokenBucket.consume now key (bucket c)) in
  let c' := snd (handler bucketConsume config now c) in
  fst (handler bucketConsume config now c) = inr tt
  /\ bucket c' = snd (TokenBucket.consume now key (bucket c))
  /\ headers (res c') !! "X-RateLimit-Limit"%string
     = Some (VNumber (capacity config))
  /\ headers (res c') !! "X-RateLimit-Remaining"%string
     = Some (VNumber (Math_max 0 (TokenBucket.remainingTokens r)))
  /\ (if TokenBucket.allowed r
      then nextCalls c' = S (nextCalls c)
           /\ statusCode (res c') = statusCode (res c)
           /\ body (res c') = body (res c)
      else if validTime (TokenBucket.resetTime r)
      then nextCalls c' = nextCalls c
           /\ statusCode (res c') = 429%Z
           /\ exists b, body (res c') = Some b
                        /\ error b = "Rate limit exceeded"%string
                        /\ body_limit b = capacity config
                        /\ reset_time b = VIsoDate (TokenBucket.resetTime r)
      else nextCalls c' = S (nextCalls c)
           /\ statusCode (res c') = 429%Z
           /\ body (res c') = body (res c)
           /\ console c'
              = console c
                ++ [Warn "Rate limit exceeded for key" key;
                    ErrorLog "Rate limiter error:"
                             (Error "Invalid time value")]).
Proof.
  intros Hkey Hhook _ r c'. unfold c', r.
  unfold handler, tryCatch, bind, gets, lift. cbn beta iota.
  rewrite Hkey, Hhook. unfold awaitConsume, bucketConsume.
  destruct (TokenBucket.consume now key (bucket c)) as [res0 b'].
  cbn [fst snd].
  destruct (TokenBucket.allowed res0) eqn:Ha; cbn [negb].
  - cbn. rewrite !lookup_insert_ne by discriminate.
    rewrite !lookup_insert_eq.
    rewrite lookup_insert_ne by discriminate. rewrite lookup_insert_eq.
    now repeat split.
  - unfold toISOString.
    destruct (validTime (TokenBucket.resetTime res0)) eqn:Hv;
      (destruct (TokenBucket.retryAfterSeconds res0) as [s|];
       [destruct (truthy s) eqn:Ht|]); cbn; rewrite ?Ht; cbn;
      rewrite !lookup_insert_ne by discriminate;
      rewrite !lookup_insert_eq;
      rewrite ?lookup_insert_ne by discriminate; rewrite ?lookup_insert_eq;
      rewrite <- ?app_assoc; cbn [app];
      repeat split; eexists; repeat split.
Qed.

(** One token, two requests at one instant: the second is refused and
    answered. *)
Lemma handler_decides_witness :
  let config :=
    {| capacity := 1; refillRate := 1; keyPrefix := Some "test"%string;
       keyGenerator := None; skipFailedRequests := None;
       skipSuccessfulRequests := None; onLimitReached := None |} in
  let c0 :=
    {| bucket := TokenBucket.new (bucketConfig config);
       req := {| x_forwarded_for := Some "10.0.0.1, 10.0.0.2"%string;
                 x_real_ip := None; user_agent := None;
                 remoteAddress := Some "::1"%string;
                 url := "/api/test"; method := "GET"; rateLimit := None |};
       res := {| headers := ∅; statusCode := 200; body := None |};
       nextCalls := 0; console := [] |} in
  let c := snd (handler bucketConsume config 0 c0) in
  fst (handler bucketConsume config 0 c) = inr tt
  /\ statusCode (res (snd (handler bucketConsume config 0 c))) = 429%Z.
Proof.
  intros config c0 c.
  assert (Hrate : ~ (TokenBucket.refillRate (TokenBucket.config (bucket c))
                     == 0)%Q) by (intros H; discriminate H).
  pose proof (handler_decides config 0 c "10.0.0.1" eq_refl eq_refl Hrate)
    as (H1 & _ & _ & _ & H5).
  split; [exact H1|].
  change (TokenBucket.allowed
            (fst (TokenBucket.consume 0 "10.0.0.1" (bucket c))))
    with false in H5.
  change (validTime (TokenBucket.resetTime
            (fst (TokenBucket.consume 0 "10.0.0.1" (bucket c)))))
    with true in H5.
  exact (proj1 (proj2 H5)).
Defined.

(** A rate of [2^-44] tokens per second: once the only token is taken
    the bucket is full again 1.7e16 ms later, past the last [Date].  The
    first request is allowed; the second is refused, the status is set to
    429, [toISOString] throws, and the [catch] lets the request through
    without a body. *)
Example reset_time_out_of_range :
  let config :=
    {| capacity := 1; refillRate := 1 # 2 ^ 44;
       keyPrefix := Some "test"%string;
       keyGenerator := None; skipFailedRequests := None;
       skipSuccessfulRequests := None; onLimitReached := None |} in
  let c0 :=
    {| bucket := TokenBucket.new (bucketConfig config);
       req := {| x_forwarded_for := None; x_real_ip := None;
                 user_agent := None; remoteAddress := Some "::1"%string;
                 url := "/api/test"; method := "GET"; rateLimit := None |};
       res := {| headers := ∅; statusCode := 200; body := None |};
       nextCalls := 0; console := [] |} in
  let c1 := snd (handler bucketConsume config 0 c0) in
  let c2 := snd (handler bucketConsume config 0 c1) in
  (nextCalls c1, statusCode (res c1)) = (1%nat, 200%Z)
  /\ TokenBucket.allowed
       (fst (TokenBucket.consume 0 "::1" (bucket c1))) = false
  /\ validTime (TokenBucket.resetTime
                  (fst (TokenBucket.consume 0 "::1" (bucket c1)))) = false
  /\ (nextCalls c2, statusCode (res c2), body (res c2))
     = (2%nat, 429%Z, None)
  /\ console c2
     = [Warn "Rate limit exceeded for key" "::1";
        ErrorLog "Rate limiter error:" (Error "Invalid time value")].
Proof. vm_compute. repeat split. Qed.

(** *** A hook that throws *)

(** X8. When the bucket refuses a request and the [onLimitReached] hook
    throws, the [catch] lets the request through: [next()] is called, no
    status 429 and no body is written, the error is logged, and the
    bucket keeps the state of the refused call. *)
Theorem throwing_hook_fails_open config now c key f e :
  default defaultKeyGenerator (keyGenerator config) (req c) = inr key ->
  onLimitReached config = Some f ->
  (forall rq rs, f rq rs = inl e) ->
  TokenBucket.allowed (fst (TokenBucket.consume now key (bucket c))) = false ->
  let c' := snd (handler bucketConsume config now c) in
  fst (handler bucketConsume config now c) = inr tt
  /\ nextCalls c' = S (nextCalls c)
  /\ statusCode (res c') = statusCode (res c)
  /\ body (res c') = body (res c)
  /\ bucket c' = snd (TokenBucket.consume now key (bucket c))
  /\ console c' = console c ++ [ErrorLog "Rate limiter error:" e].
Proof.
  intros Hkey Hhook Hf Hrefused c'. unfold c'. revert Hrefused.
  unfold handler, tryCatch, bind, gets, lift. cbn beta iota.
  rewrite Hkey, Hhook. unfold awaitConsume, bucketConsume.
  destruct (TokenBucket.consume now key (bucket c)) as [res0 b'].
  cbn [fst snd]. intros ->. cbn [negb].
  destruct (TokenBucket.retryAfterSeconds res0) as [s|];
    [destruct (truthy s) eqn:Ht|]; cbn; rewrite ?Ht; cbn;
    unfold callHook; cbn; rewrite Hf; now repeat split.
Qed.

Lemma throwing_hook_fails_open_witness :
  let config :=
    {| capacity := 1; refillRate := 1; keyPrefix := Some "test"%string;
       keyGenerator := None; skipFailedRequests := None;
       skipSuccessfulRequests := None;
       onLimitReached := Some (fun _ _ => inl (Error "hook failed")) |} in
  let c0 :=
    {| bucket := TokenBucket.new (bucketConfig config);
       req := {| x_forwarded_for := None; x_real_ip := None;
                 user_agent := None; remoteAddress := Some "::1"%string;
                 url := "/api/test"; method := "GET"; rateLimit := None |};
       res := {| headers := ∅; statusCode := 200; body := None |};
       nextCalls := 0; console := [] |} in
  let c := snd (handler bucketConsume config 0 c0) in
  nextCalls (snd (handler bucketConsume config 0 c)) = 2%nat
  /\ statusCode (res (snd (handler bucketConsume config 0 c))) = 200%Z.
Proof.
  intros config c0 c.
  destruct (throwing_hook_fails_open config 0 c "::1"
              (fun _ _ => inl (Error "hook failed")) (Error "hook failed"))
    as (_ & Hn & Hs & _); try reflexivity.
  split; [exact Hn | exact Hs].
Defined.

(** *** Profiles *)

(** X9. For each of the four profiles, and whatever the environment
    holds, [createProfiledRateLimiter(profile)] passes the validation and
    builds a limiter with the profile's capacity and rate and an empty
    bucket map. *)
Theorem profiled_limiter_ignores_environment env p :
  exists l,
    createProfiledRateLimiter env p noOverrides = inr l
    /\ capacity (limiterConfig l) = fst (rateLimitProfiles p)
    /\ refillRate (limiterConfig l) = snd (rateLimitProfiles p)
    /\ (0 < capacity (limiterConfig l))%Q
    /\ (0 < refillRate (limiterConfig l))%Q
    /\ TokenBucket.storage (limiterBucket l) = ∅.
Proof.
  destruct p; eexists; (split; [reflexivity|]); now repeat split.
Qed.
End RateLimitMiddlewareMore.

(** ** The monitor: buffer, clients, figures and assessment *)

Module ScalabilityMonitorMore.
Import JS JSFacts ScalabilityMonitor ScalabilityMonitorFacts.

(** *** The buffer and the set of clients *)

Lemma kept_cases now rt sc cid m :
  let new := {| timestamp := now; rm_responseTime := rt; status := sc |} in
  let pushed := requestMetrics m ++ [new] in
  requestMetrics (recordRequest now rt sc cid m) = pushed
  /\ (Z.of_nat (length pushed) <= 10000)%Z
  \/ requestMetrics (recordRequest now rt sc cid m)
     = drop (length pushed - 5000) pushed
     /\ (10000 < Z.of_nat (length pushed))%Z.
Proof.
  intros new pushed. unfold recordRequest.
  rewrite requestMetrics_cleanup. cbn [requestMetrics]. fold new. fold pushed.
  destruct (Z.of_nat (length pushed) >? 10000)%Z eqn:G.
  - right. apply Z.gtb_lt in G. split; [|exact G].
    unfold slice. cbn [Z.ltb Z.compare]. rewrite Z.max_l by lia.
    f_equal. lia.
  - left. split; [reflexivity|].
    rewrite Z.gtb_ltb in G. now apply Z.ltb_ge in G.
Qed.

(** X10. The record [recordRequest] appends is always the last one of
    the buffer afterwards: a compaction never drops it. *)
Theorem newest_record_kept now rt sc cid m :
  last (requestMetrics (recordRequest now rt sc cid m))
  = Some {| timestamp := now; rm_responseTime := rt; status := sc |}.
Proof.
  destruct (kept_cases now rt sc cid m) as [[E _] | [E H]]; rewrite E.
  - apply last_snoc.
  - rewrite drop_app_le by (rewrite length_app in *; cbn in *; lia).
    apply last_snoc.
Qed.

Lemma succ_mod (n : Z) :
  ((n + 1) mod 1000 <> 0 -> (n + 1) mod 1000 = n mod 1000 + 1)%Z.
Proof. intros H. Z.div_mod_to_equations. lia. Qed.

Lemma size_add_le (c : string) (X : gset string) :
  (base.size ({[ c ]} ∪ X) <= S (base.size X))%nat.
Proof.
  rewrite size_union_alt, size_singleton.
  assert (Hsub : X ∖ {[ c ]} ⊆ X)
    by (apply subseteq_difference_l; reflexivity).
  apply subseteq_size in Hsub. lia.
Qed.

Lemma bound_cleanup m :
  ((Z.of_nat (length (requestMetrics m)) mod 1000 <> 0)%Z ->
   (Z.of_nat (base.size (activeConnections m))
    <= Z.of_nat (length (requestMetrics m)) mod 1000)%Z) ->
  (Z.of_nat (base.size (activeConnections (cleanupOldConnections m)))
   <= Z.of_nat (length (requestMetrics (cleanupOldConnections m)))
      mod 1000)%Z.
Proof.
  intros H. rewrite requestMetrics_cleanup. unfold cleanupOldConnections.
  destruct (Z.of_nat (length (requestMetrics m)) mod 1000 =? 0)%Z eqn:G.
  - cbn [activeConnections]. rewrite size_empty. apply Z.mod_pos_bound. lia.
  - apply H. now apply Z.eqb_neq.
Qed.

Lemma connections_bound_record now rt sc cid m :
  (Z.of_nat (base.size (activeConnections m))
   <= Z.of_nat (length (requestMetrics m)) mod 1000)%Z ->
  (Z.of_nat (base.size (activeConnections (recordRequest now rt sc cid m)))
   <= Z.of_nat (length (requestMetrics (recordRequest now rt sc cid m)))
      mod 1000)%Z.
Proof.
  intros Hm. unfold recordRequest. apply bound_cleanup.
  cbn [requestMetrics activeConnections].
  set (pushed := requestMetrics m ++ _).
  assert (Hlen : Z.of_nat (length pushed)
                 = (Z.of_nat (length (requestMetrics m)) + 1)%Z)
    by (unfold pushed; rewrite length_app; cbn; lia).
  destruct (Z.of_nat (length pushed) >? 10000)%Z eqn:G.
  - apply Z.gtb_lt in G. intros Hne. exfalso. apply Hne.
    destruct (slice_last 5000 pushed) as [H5 _]; [lia|].
    change (- (5000))%Z with (-5000)%Z in H5. rewrite H5. reflexivity.
  - intros Hne. rewrite Hlen in *. rewrite succ_mod by exact Hne.
    assert (Hs : (base.size (match cid with
                             | Some c => if String.eqb c ""
                                         then activeConnections m
                                         else {[ c ]} ∪ activeConnections m
                             | None => activeConnections m
                             end)
                  <= S (base.size (activeConnections m)))%nat).
    { destruct cid as [c|]; [destruct (String.eqb c "")|];
        try lia. apply size_add_le. }
    lia.
Qed.

Lemma connections_bound_calls cs m :
  (Z.of_nat (base.size (activeConnections m))
   <= Z.of_nat (length (requestMetrics m)) mod 1000)%Z ->
  (Z.of_nat (base.size (activeConnections (calls cs m)))
   <= Z.of_nat (length (requestMetrics (calls cs m))) mod 1000)%Z.
Proof.
  revert m. induction cs as [|c cs IH]; intros m Hm; [exact Hm|].
  cbn. change (foldl call (call m c) cs) with (calls cs (call m c)).
  apply IH. destruct c as [now rt sc cid | now]; cbn [call].
  - now apply connections_bound_record.
  - unfold reset. cbn [activeConnections requestMetrics].
    rewrite size_empty. vm_compute. discriminate.
Qed.

(** X11. After any sequence of [recordRequest] and [reset] calls on a
    new monitor, the set of active connections has at most as many
    members as the buffer length modulo 1000, so fewer than 1000. *)
Theorem active_connections_bounded cs now0 :
  let m := calls cs (new now0) in
  (Z.of_nat (base.size (activeConnections m))
   <= Z.of_nat (length (requestMetrics m)) mod 1000)%Z
  /\ (base.size (activeConnections m) < 1000)%nat.
Proof.
  intros m.
  assert (H : (Z.of_nat (base.size (activeConnections m))
               <= Z.of_nat (length (requestMetrics m)) mod 1000)%Z).
  { apply connections_bound_calls. unfold new.
    cbn [activeConnections requestMetrics].
    rewrite size_empty. vm_compute. discriminate. }
  split; [exact H|].
  pose proof (Z.mod_pos_bound (Z.of_nat (length (requestMetrics m))) 1000
                ltac:(lia)).
  lia.
Qed.

(** *** The figures of [getPerformanceMetrics] *)

(** The function on a window that is not empty, with every division
    carried out. *)
Lemma performance_of_window now m :
  window now m <> [] ->
  let recent := window now m in
  let times := sortAscending (rm_responseTime <$> recent) in
  let failed := filter (fun r => (400 <= status r)%Z) recent in
  let rounded (x : Q) := (Math_round (x * 100) / 100)%Q in
  getPerformanceMetrics now m
  = Some {| responseTime :=
              {| avg := rounded (sum times / size times)%Q;
                 p95 := rounded (at_or_zero times
                                   (Math_floor (size times * (95 # 100))));
                 p99 := rounded (at_or_zero times
                                   (Math_floor (size times * (99 # 100)))) |};
            throughput :=
              {| requestsPerSecond := rounded (size recent / 60)%Q;
                 requestsPerMinute := size recent |};
            errors :=
              {| rate := rounded (size failed / size recent * 100)%Q;
                 count := size failed |} |}.
Proof.
  intros Hrecent recent times failed rounded.
  unfold getPerformanceMetrics. fold (window now m). fold recent.
  destruct (Z.of_nat (length recent) =? 0)%Z eqn:E.
  { apply Z.eqb_eq in E. exfalso. apply Hrecent.
    apply nil_length_inv. fold recent. lia. }
  assert (Hsorted : times <> []).
  { intros H. apply (f_equal length) in H. unfold times in H.
    rewrite length_sortAscending, length_fmap in H. cbn [length] in H.
    apply Hrecent. now apply nil_length_inv. }
  fold times. fold failed.
  rewrite (divide_defined _ _ (size_nonzero _ Hsorted)).
  cbn [mbind option_bind].
  rewrite (divide_defined _ 60) by discriminate. cbn [mbind option_bind].
  rewrite (divide_defined _ _ (size_nonzero _ Hrecent)).
  cbn [mbind option_bind].
  rewrite !round2_defined. cbn [mbind option_bind]. reflexivity.
Qed.

Lemma size_nonneg {A} (l : list A) : (0 <= size l)%Q.
Proof.
  unfold size. change 0%Q with (inject_Z 0). rewrite <- Zle_Qle. lia.
Qed.

Lemma size_le {A} (l k : list A) :
  (length l <= length k)%nat -> (size l <= size k)%Q.
Proof. intros H. unfold size. rewrite <- Zle_Qle. lia. Qed.

Lemma round2_mono x y :
  (x <= y)%Q ->
  (Math_round (x * 100) / 100 <= Math_round (y * 100) / 100)%Q.
Proof.
  intros H. unfold Math_round.
  assert (Hf : (Qfloor (x * 100 + (1 # 2)) <= Qfloor (y * 100 + (1 # 2)))%Z)
    by (apply Qfloor_resp_le; lra).
  rewrite Zle_Qle in Hf. unfold Qdiv. change (/ 100)%Q with (1 # 100)%Q. lra.
Qed.

Lemma ratio_bounds a b :
  (0 <= a)%Q -> (a <= b)%Q -> (0 < b)%Q ->
  (0 <= a / b * 100 <= 100)%Q.
Proof.
  intros H0 Hab Hb.
  assert (H1 : (0 <= a / b)%Q)
    by (apply Qle_shift_div_l; [exact Hb | lra]).
  assert (H2 : (a / b <= 1)%Q)
    by (apply Qle_shift_div_r; [exact Hb | lra]).
  lra.
Qed.

(** X12. [getPerformanceMetrics] always returns; its error rate lies in
    [[0, 100]], its error count is the number of records of the window
    with status 400 or more and is at most [requestsPerMinute], which is
    the number of records of the window. *)
Theorem error_figures_bounded now m :
  exists pm,
    getPerformanceMetrics now m = Some pm
    /\ (0 <= rate (errors pm) <= 100)%Q
    /\ (0 <= count (errors pm) <= requestsPerMinute (throughput pm))%Q
    /\ requestsPerMinute (throughput pm) = size (window now m)
    /\ count (errors pm)
       = size (filter (fun r => (400 <= status r)%Z) (window now m)).
Proof.
  destruct (window now m) as [|r0 rs] eqn:Hw.
  - exists zeroPerformance. split.
    + unfold getPerformanceMetrics. fold (window now m). now rewrite Hw.
    + cbn. repeat split; discriminate.
  - assert (Hne : window now m <> []) by (rewrite Hw; discriminate).
    eexists. split; [apply (performance_of_window now m Hne)|].
    cbn [errors throughput rate count requestsPerMinute]. rewrite Hw.
    set (recent := r0 :: rs).
    set (failed := filter (fun r => (400 <= status r)%Z) recent).
    assert (Hf0 : (0 <= size failed)%Q) by apply size_nonneg.
    assert (Hfr : (size failed <= size recent)%Q)
      by (apply size_le, length_filter).
    assert (Hr : (0 < size recent)%Q).
    { unfold size, recent. change 0%Q with (inject_Z 0).
      rewrite <- Zlt_Qlt. cbn [length]. lia. }
    split; [|now repeat split].
    destruct (ratio_bounds _ _ Hf0 Hfr Hr) as [Ha Hb].
    split.
    + apply (round2_mono 0) in Ha.
      eapply Qle_trans; [|exact Ha]. vm_compute. discriminate.
    + apply (fun H => round2_mono _ 100 H) in Hb.
      eapply Qle_trans; [exact Hb|]. vm_compute. discriminate.
Qed.

(** *** Sorting and the percentiles *)

Lemma elem_of_insertSorted y x l : y ∈ insertSorted x l <-> y = x \/ y ∈ l.
Proof.
  induction l as [|z l IH]; cbn [insertSorted].
  - rewrite list_elem_of_singleton, elem_of_nil. tauto.
  - destruct (Qle_bool z x); rewrite !elem_of_cons, ?IH; tauto.
Qed.

Lemma insertSorted_sorted x l :
  StronglySorted Qle l -> StronglySorted Qle (insertSorted x l).
Proof.
  induction 1 as [|z l Hl IH Hz]; cbn [insertSorted].
  - repeat constructor.
  - destruct (Qle_bool z x) eqn:E.
    + constructor; [exact IH|]. apply Forall_forall. intros y Hy.
      apply elem_of_insertSorted in Hy. destruct Hy as [-> | Hy].
      * now apply Qle_bool_iff.
      * rewrite Forall_forall in Hz. now apply Hz.
    + assert (Hxz : (x <= z)%Q).
      { apply Qlt_le_weak, Qnot_le_lt. intros H.
        apply Qle_bool_iff in H. congruence. }
      constructor; [now constructor|]. constructor; [exact Hxz|].
      eapply Forall_impl; [exact Hz|]. cbn. intros y Hy.
      now apply Qle_trans with z.
Qed.

Lemma foldl_insertSorted acc l :
  StronglySorted Qle acc ->
  StronglySorted Qle (foldl (fun acc x => insertSorted x acc) acc l)
  /\ forall y, y ∈ foldl (fun acc x => insertSorted x acc) acc l
               <-> y ∈ acc \/ y ∈ l.
Proof.
  revert acc. induction l as [|x l IH]; intros acc Hacc; cbn [foldl].
  - split; [exact Hacc|]. intros y. rewrite elem_of_nil. tauto.
  - destruct (IH (insertSorted x acc) (insertSorted_sorted x acc Hacc))
      as [Hs Hm].
    split; [exact Hs|]. intros y.
    rewrite Hm, elem_of_insertSorted, elem_of_cons. tauto.
Qed.

Lemma sortAscending_sorted l : StronglySorted Qle (sortAscending l).
Proof. apply foldl_insertSorted. constructor. Qed.

Lemma elem_of_sortAscending y l : y ∈ sortAscending l <-> y ∈ l.
Proof.
  unfold sortAscending.
  rewrite (proj2 (foldl_insertSorted [] l (SSorted_nil _))), elem_of_nil.
  tauto.
Qed.

Lemma sorted_lookup (l : list Q) :
  StronglySorted Qle l ->
  forall i j a b, (i <= j)%nat -> l !! i = Some a -> l !! j = Some b ->
                  (a <= b)%Q.
Proof.
  induction 1 as [|z l Hl IH Hz]; intros i j a b Hij Ha Hb.
  - now rewrite lookup_nil in Ha.
  - destruct i as [|i], j as [|j]; cbn in Ha, Hb; try lia.
    + injection Ha as <-. injection Hb as <-. apply Qle_refl.
    + injection Ha as <-. rewrite Forall_forall in Hz. apply Hz.
      eapply list_elem_of_lookup_2. exact Hb.
    + apply (IH i j); [lia | exact Ha | exact Hb].
Qed.

(** [floor(n * p)] for [0 <= p < 1] is an index of an array of length
    [n > 0]. *)
Lemma percentile_index {A} (l : list A) (p : Q) :
  l <> [] -> (0 <= p)%Q -> (p < 1)%Q ->
  (0 <= Qfloor (size l * p) < Z.of_nat (length l))%Z.
Proof.
  intros Hl H0 H1.
  assert (Hn : (0 < size l)%Q).
  { unfold size. change 0%Q with (inject_Z 0). rewrite <- Zlt_Qlt.
    destruct l; [congruence | cbn [length]; lia]. }
  assert (Hx0 : (0 <= size l * p)%Q) by (apply Qmult_le_0_compat; lra).
  assert (Hx1 : (size l * p < size l)%Q).
  { assert (H : (size l * p < size l * 1)%Q)
      by (apply Qmult_lt_l; assumption).
    now rewrite Qmult_1_r in H. }
  split.
  - change 0%Z with (Qfloor 0). now apply Qfloor_resp_le.
  - pose proof (Qfloor_le (size l * p)) as Hf.
    assert (H : (inject_Z (Qfloor (size l * p))
                 < inject_Z (Z.of_nat (length l)))%Q).
    { eapply Qle_lt_trans; [exact Hf | exact Hx1]. }
    now rewrite <- Zlt_Qlt in H.
Qed.

Lemma at_or_zero_floor xs q :
  at_or_zero xs (Math_floor q) = default 0%Q (xs !! Z.to_nat (Qfloor q)).
Proof. unfold at_or_zero, Math_floor. now rewrite Qfloor_Z. Qed.

(** X13. On a window that is not empty, p95 and p99 are the response
    times of two records of the window, rounded to two decimals (the
    index [floor(n * 0.95)] or [floor(n * 0.99)] is inside the sorted
    array), and p95 is at most p99. *)
Theorem percentiles_from_window now m :
  window now m <> [] ->
  exists pm r95 r99,
    getPerformanceMetrics now m = Some pm
    /\ r95 ∈ window now m /\ r99 ∈ window now m
    /\ (rm_responseTime r95 <= rm_responseTime r99)%Q
    /\ p95 (responseTime pm)
       = (Math_round (rm_responseTime r95 * 100) / 100)%Q
    /\ p99 (responseTime pm)
       = (Math_round (rm_responseTime r99 * 100) / 100)%Q
    /\ (p95 (responseTime pm) <= p99 (responseTime pm))%Q.
Proof.
  intros Hne.
  set (times := sortAscending (rm_responseTime <$> window now m)).
  assert (Hlen : length times = length (window now m))
    by (unfold times; now rewrite length_sortAscending, length_fmap).
  assert (Htimes : times <> []).
  { intros H. apply Hne, nil_length_inv. now rewrite <- Hlen, H. }
  destruct (percentile_index times (95 # 100) Htimes) as [A0 A1];
    [discriminate | reflexivity |].
  destruct (percentile_index times (99 # 100) Htimes) as [B0 B1];
    [discriminate | reflexivity |].
  assert (Hle : (Qfloor (size times * (95 # 100))
                 <= Qfloor (size times * (99 # 100)))%Z).
  { apply Qfloor_resp_le. pose proof (size_nonneg times). lra. }
  destruct (lookup_lt_is_Some_2 times
              (Z.to_nat (Qfloor (size times * (95 # 100)))) ltac:(lia))
    as [a Ha].
  destruct (lookup_lt_is_Some_2 times
              (Z.to_nat (Qfloor (size times * (99 # 100)))) ltac:(lia))
    as [b Hb].
  assert (Hab : (a <= b)%Q).
  { apply (sorted_lookup times (sortAscending_sorted _)
             (Z.to_nat (Qfloor (size times * (95 # 100))))
             (Z.to_nat (Qfloor (size times * (99 # 100)))) a b);
      [lia | exact Ha | exact Hb]. }
  assert (Hina : a ∈ rm_responseTime <$> window now m).
  { apply elem_of_sortAscending. eapply list_elem_of_lookup_2. exact Ha. }
  assert (Hinb : b ∈ rm_responseTime <$> window now m).
  { apply elem_of_sortAscending. eapply list_elem_of_lookup_2. exact Hb. }
  apply list_elem_of_fmap in Hina, Hinb.
  destruct Hina as (r95 & -> & H95), Hinb as (r99 & -> & H99).
  eexists. exists r95, r99.
  split; [apply (performance_of_window now m Hne)|].
  cbn [responseTime p95 p99]. fold times.
  rewrite !at_or_zero_floor, Ha, Hb. cbn [default].
  repeat split; try assumption. now apply round2_mono.
Qed.

Lemma percentiles_from_window_witness :
  let m := recordRequest 3000 40 500 None
             (recordRequest 2000 (25 # 2) 200 None
                (recordRequest 1000 30 200 None (new 0))) in
  exists pm r95 r99,
    getPerformanceMetrics 4000 m = Some pm
    /\ r95 ∈ window 4000 m /\ r99 ∈ window 4000 m
    /\ (rm_responseTime r95 <= rm_responseTime r99)%Q
    /\ p95 (responseTime pm)
       = (Math_round (rm_responseTime r95 * 100) / 100)%Q
    /\ p99 (responseTime pm)
       = (Math_round (rm_responseTime r99 * 100) / 100)%Q
    /\ (p95 (responseTime pm) <= p99 (responseTime pm))%Q.
Proof.
  intros m. apply (percentiles_from_window 4000 m). vm_compute. discriminate.
Defined.

(** *** The assessment *)

Lemma score_tiers m :
  score (getScalabilityAssessment m)
  = Z.max 0 (100
             - tier (databaseSize (database m) / (1024 * 1024 * 1024))
                    1 5 15 30
             - tier (p95 (responseTime (performance m))) 200 500 10 25
             - tier (requestsPerSecond (throughput (performance m)))
                    100 500 5 20
             - tier (rate (errors (performance m))) 1 5 10 25
             - tier (usage (memory (system m))) 80 90 5 20)%Z.
Proof.
  unfold getScalabilityAssessment. cbn [score].
  rewrite score_assessMemory, score_assessErrors, score_assessThroughput,
    score_assessPerformance, score_assessDatabase. reflexivity.
Qed.

Lemma status_of_score m :
  a_status (getScalabilityAssessment m)
  = statusOf (score (getScalabilityAssessment m)).
Proof.
  unfold getScalabilityAssessment. cbn [a_status score].
  now rewrite statusOf_clamped.
Qed.

Lemma tier_mono x y low high small large :
  (x <= y)%Q -> (low <= high)%Q -> (0 <= small <= large)%Z ->
  (tier x low high small large <= tier y low high small large)%Z.
Proof.
  intros Hxy Hlh Hsl. unfold tier.
  destruct (gt x high) eqn:A, (gt y high) eqn:B,
           (gt x low) eqn:C, (gt y low) eqn:D; try lia;
    rewrite ?gt_true, ?gt_false in *; lra.
Qed.

(** X14. If none of the five assessed gauges is lower in a second
    snapshot than in a first one, the score of the second is not higher;
    a green second snapshot means a green first one, and a red first one
    means a red second one. *)
Theorem worse_gauges_never_raise_score m1 m2 :
  (databaseSize (database m1) <= databaseSize (database m2))%Q ->
  (p95 (responseTime (performance m1))
   <= p95 (responseTime (performance m2)))%Q ->
  (requestsPerSecond (throughput (performance m1))
   <= requestsPerSecond (throughput (performance m2)))%Q ->
  (rate (errors (performance m1)) <= rate (errors (performance m2)))%Q ->
  (usage (memory (system m1)) <= usage (memory (system m2)))%Q ->
  (score (getScalabilityAssessment m2)
   <= score (getScalabilityAssessment m1))%Z
  /\ (a_status (getScalabilityAssessment m2) = green ->
      a_status (getScalabilityAssessment m1) = green)
  /\ (a_status (getScalabilityAssessment m1) = red ->
      a_status (getScalabilityAssessment m2) = red).
Proof.
  intros Hdb Hp Hr He Hm.
  assert (Hdb' : (databaseSize (database m1) / (1024 * 1024 * 1024)
                  <= databaseSize (database m2) / (1024 * 1024 * 1024))%Q).
  { unfold Qdiv. apply Qmult_le_compat_r; [exact Hdb | discriminate]. }
  assert (Hs : (score (getScalabilityAssessment m2)
                <= score (getScalabilityAssessment m1))%Z).
  { rewrite !score_tiers.
    pose proof (tier_mono _ _ 1 5 15 30 Hdb' ltac:(discriminate) ltac:(lia)).
    pose proof (tier_mono _ _ 200 500 10 25 Hp ltac:(discriminate)
                  ltac:(lia)).
    pose proof (tier_mono _ _ 100 500 5 20 Hr ltac:(discriminate)
                  ltac:(lia)).
    pose proof (tier_mono _ _ 1 5 10 25 He ltac:(discriminate) ltac:(lia)).
    pose proof (tier_mono _ _ 80 90 5 20 Hm ltac:(discriminate) ltac:(lia)).
    lia. }
  split; [exact Hs|]. rewrite !status_of_score. unfold statusOf.
  split; intros H;
    destruct (80 <=? score (getScalabilityAssessment m1))%Z eqn:A,
             (60 <=? score (getScalabilityAssessment m1))%Z eqn:B,
             (80 <=? score (getScalabilityAssessment m2))%Z eqn:C,
             (60 <=? score (getScalabilityAssessment m2))%Z eqn:D;
    try reflexivity; try discriminate; lia.
Qed.

Lemma worse_gauges_never_raise_score_witness :
  (score (getScalabilityAssessment (snapshot 0 600 0 0 0))
   <= score (getScalabilityAssessment (snapshot 0 150 0 0 0)))%Z.
Proof.
  apply (proj1 (worse_gauges_never_raise_score
                  (snapshot 0 150 0 0 0) (snapshot 0 600 0 0 0)
                  ltac:(discriminate) ltac:(discriminate)
                  ltac:(discriminate) ltac:(discriminate)
                  ltac:(discriminate))).
Defined.

Lemma effect_deduct n alert rec a :
  acc_score (deduct n alert rec a) = (acc_score a - n)%Z
  /\ length (acc_recommendations (deduct n alert rec a))
     = S (length (acc_recommendations a))
  /\ length (acc_alerts (deduct n alert rec a))
     = (length (acc_alerts a)
        + match alert with Some _ => 1 | None => 0 end)%nat.
Proof.
  unfold deduct. cbn. destruct alert; rewrite ?length_app; cbn; lia.
Qed.

(** What one of the five assessments does to the three locals: nothing,
    or one deduction with one recommendation; a deduction without an
    alert is at most [quiet]. *)
Lemma effect_of_step (f : Acc -> Acc) (quiet : Z) a :
  (0 <= quiet)%Z ->
  (f a = a
   \/ exists n alert rec,
       f a = deduct n alert rec a /\ (5 <= n <= 30)%Z
       /\ (alert = None -> (n <= quiet)%Z)) ->
  exists (n : Z) (r al : nat),
    acc_score (f a) = (acc_score a - n)%Z
    /\ length (acc_recommendations (f a))
       = (length (acc_recommendations a) + r)%nat
    /\ length (acc_alerts (f a)) = (length (acc_alerts a) + al)%nat
    /\ (5 * Z.of_nat r <= n <= 30 * Z.of_nat r)%Z
    /\ (al <= r <= 1)%nat
    /\ (al = O -> (n <= quiet)%Z).
Proof.
  intros Hq0 [-> | (n & alert & rec & -> & Hn & Hq)].
  - exists 0%Z, O, O. repeat split; lia.
  - destruct (effect_deduct n alert rec a) as (E1 & E2 & E3).
    exists n, 1%nat, (match alert with Some _ => 1 | None => 0 end)%nat.
    split; [exact E1|]. split; [lia|]. split; [exact E3|].
    split; [lia|]. destruct alert; (split; [lia|]); [lia | auto].
Qed.

Lemma effect_assessDatabase m a :
  assessDatabase m a = a
  \/ exists n alert rec,
      assessDatabase m a = deduct n alert rec a /\ (5 <= n <= 30)%Z
      /\ (alert = None -> (n <= 0)%Z).
Proof.
  unfold assessDatabase.
  destruct (gt _ 5); [|destruct (gt _ 1)]; [right | right | now left];
    eexists _, _, _; (split; [reflexivity|]); split; (lia || discriminate).
Qed.

Lemma effect_assessPerformance m a :
  assessPerformance m a = a
  \/ exists n alert rec,
      assessPerformance m a = deduct n alert rec a /\ (5 <= n <= 30)%Z
      /\ (alert = None -> (n <= 10)%Z).
Proof.
  unfold assessPerformance.
  destruct (gt _ 500); [|destruct (gt _ 200)]; [right | right | now left];
    eexists _, _, _; (split; [reflexivity|]); split;
    (lia || discriminate || (intros; lia)).
Qed.

Lemma effect_assessThroughput m a :
  assessThroughput m a = a
  \/ exists n alert rec,
      assessThroughput m a = deduct n alert rec a /\ (5 <= n <= 30)%Z
      /\ (alert = None -> (n <= 5)%Z).
Proof.
  unfold assessThroughput.
  destruct (gt _ 500); [|destruct (gt _ 100)]; [right | right | now left];
    eexists _, _, _; (split; [reflexivity|]); split;
    (lia || discriminate || (intros; lia)).
Qed.

Lemma effect_assessErrors m a :
  assessErrors m a = a
  \/ exists n alert rec,
      assessErrors m a = deduct n alert rec a /\ (5 <= n <= 30)%Z
      /\ (alert = None -> (n <= 10)%Z).
Proof.
  unfold assessErrors.
  destruct (gt _ 5); [|destruct (gt _ 1)]; [right | right | now left];
    eexists _, _, _; (split; [reflexivity|]); split;
    (lia || discriminate || (intros; lia)).
Qed.

Lemma effect_assessMemory m a :
  assessMemory m a = a
  \/ exists n alert rec,
      assessMemory m a = deduct n alert rec a /\ (5 <= n <= 30)%Z
      /\ (alert = None -> (n <= 5)%Z).
Proof.
  unfold assessMemory.
  destruct (gt _ 90); [|destruct (gt _ 80)]; [right | right | now left];
    eexists _, _, _; (split; [reflexivity|]); split;
    (lia || discriminate || (intros; lia)).
Qed.

(** X15. The score is 100 exactly when there is no recommendation;
    there are at most five recommendations and never more alerts than
    recommendations; without an alert the score is at least 70, so a red
    status always comes with an alert. *)
Theorem recommendations_account_for_score m :
  let a := getScalabilityAssessment m in
  (score a = 100%Z <-> recommendations a = [])
  /\ (length (alerts a) <= length (recommendations a) <= 5)%nat
  /\ (alerts a = [] -> (70 <= score a)%Z)
  /\ (a_status a = red -> alerts a <> []).
Proof.
  intros a.
  set (a0 := {| acc_score := 100; acc_recommendations := [];
                acc_alerts := [] |}).
  set (a1 := assessDatabase m a0).
  set (a2 := assessPerformance m a1).
  set (a3 := assessThroughput m a2).
  set (a4 := assessErrors m a3).
  set (a5 := assessMemory m a4).
  destruct (effect_of_step _ 0 a0 ltac:(lia) (effect_assessDatabase m a0))
    as (n1 & r1 & l1 & S1 & R1 & L1 & N1 & M1 & Q1).
  destruct (effect_of_step _ 10 a1 ltac:(lia)
              (effect_assessPerformance m a1))
    as (n2 & r2 & l2 & S2 & R2 & L2 & N2 & M2 & Q2).
  destruct (effect_of_step _ 5 a2 ltac:(lia) (effect_assessThroughput m a2))
    as (n3 & r3 & l3 & S3 & R3 & L3 & N3 & M3 & Q3).
  destruct (effect_of_step _ 10 a3 ltac:(lia) (effect_assessErrors m a3))
    as (n4 & r4 & l4 & S4 & R4 & L4 & N4 & M4 & Q4).
  destruct (effect_of_step _ 5 a4 ltac:(lia) (effect_assessMemory m a4))
    as (n5 & r5 & l5 & S5 & R5 & L5 & N5 & M5 & Q5).
  fold a1 in S1, R1, L1. fold a2 in S2, R2, L2. fold a3 in S3, R3, L3.
  fold a4 in S4, R4, L4. fold a5 in S5, R5, L5.
  cbn [a0 acc_score acc_recommendations acc_alerts length] in S1, R1, L1.
  assert (Hscore : score a = Z.max 0 (acc_score a5)) by reflexivity.
  assert (Hrec : recommendations a = acc_recommendations a5) by reflexivity.
  assert (Hal : alerts a = acc_alerts a5) by reflexivity.
  assert (Hstatus : a_status a = statusOf (score a))
    by apply status_of_score.
  rewrite Hrec, Hal, Hscore in *.
  assert (Hnil : forall (A : Type) (l : list A), l = [] <-> length l = O).
  { intros A l. split; [now intros -> | apply nil_length_inv]. }
  rewrite !Hnil.
  assert (H3 : length (acc_alerts a5) = O -> (70 <= Z.max 0 (acc_score a5))%Z).
  { intros Hz.
    assert (l1 = O /\ l2 = O /\ l3 = O /\ l4 = O /\ l5 = O)
      as (Z1 & Z2 & Z3 & Z4 & Z5) by lia.
    specialize (Q1 Z1). specialize (Q2 Z2). specialize (Q3 Z3).
    specialize (Q4 Z4). specialize (Q5 Z5). lia. }
  clear Q1 Q2 Q3 Q4 Q5.
  repeat split; try lia.
  intros Hred Hz. specialize (H3 Hz). rewrite Hstatus in Hred.
  unfold statusOf in Hred.
  destruct (80 <=? Z.max 0 (acc_score a5))%Z eqn:A,
           (60 <=? Z.max 0 (acc_score a5))%Z eqn:B;
    try discriminate; lia.
Qed.
End ScalabilityMonitorMore.

(** ** The metrics collector *)

Module MetricsCollectorFacts.
Import MetricsCollector.

Lemma isWordChar_underscore : isWordChar "_"%char = true.
Proof. reflexivity. Qed.

(** X16. The endpoint label of the Prometheus output consists of
    characters of [[a-zA-Z0-9_]] only and has the length of the endpoint;
    sanitizing is idempotent and leaves a string of such characters as it
    is. *)
Theorem sanitize_label endpoint :
  allWordChars (sanitize endpoint) = true
  /\ String.length (sanitize endpoint) = String.length endpoint
  /\ sanitize (sanitize endpoint) = sanitize endpoint
  /\ (allWordChars endpoint = true -> sanitize endpoint = endpoint).
Proof.
  induction endpoint as [|c s (IH1 & IH2 & IH3 & IH4)]; [now repeat split|].
  cbn [sanitize allWordChars String.length].
  destruct (isWordChar c) eqn:E.
  - rewrite E, IH1, IH2, IH3. repeat split.
    cbn. intros H. now rewrite IH4.
  - rewrite isWordChar_underscore, IH1, IH2, IH3. repeat split.
    cbn. discriminate.
Qed.

Lemma sumOfCounts_bump key counts :
  sumOfCounts (bump key counts) = (sumOfCounts counts + 1)%Z.
Proof.
  unfold bump, sumOfCounts.
  destruct (counts !! key) as [v|] eqn:E; cbn [default].
  - rewrite <- (insert_delete_eq counts key (v + 1)%Z).
    rewrite map_fold_insert_L;
      [| intros; lia | apply lookup_delete_eq].
    rewrite (map_fold_delete_L _ _ key v counts);
      [lia | intros; lia | exact E].
  - rewrite map_fold_insert_L; [lia | intros; lia | exact E].
Qed.

Lemma totals_handle m e :
  sumOfCounts (requestsPerEndpoint m) = totalRequests m ->
  sumOfCounts (requestsPerEndpoint (handle m e))
  = totalRequests (handle m e).
Proof.
  intros H. destruct e as [endpoint | code key | now]; cbn [handle].
  - unfold metricsMiddleware. cbn. rewrite sumOfCounts_bump. lia.
  - unfold onStatus. destruct (code =? 429)%Z; [cbn|]; exact H.
  - reflexivity.
Qed.

Lemma counts_handle m e :
  (0 <= totalRequests m)%Z -> (0 <= rateLimitedRequests m)%Z ->
  (0 <= totalRequests (handle m e))%Z
  /\ (0 <= rateLimitedRequests (handle m e))%Z.
Proof.
  intros Ht Hr. destruct e as [endpoint | code key | now]; cbn [handle].
  - cbn. lia.
  - unfold onStatus. destruct (code =? 429)%Z; cbn; lia.
  - cbn. lia.
Qed.

(** X17. Whatever requests arrive, statuses are set and resets happen,
    the per-endpoint counters of the collector add up to [totalRequests],
    and no counter is negative. *)
Theorem counters_add_up events now0 :
  let m := foldl handle (new now0) events in
  sumOfCounts (requestsPerEndpoint m) = totalRequests m
  /\ (0 <= totalRequests m)%Z /\ (0 <= rateLimitedRequests m)%Z.
Proof.
  intros m.
  assert (H : forall m0,
             sumOfCounts (requestsPerEndpoint m0) = totalRequests m0
             /\ (0 <= totalRequests m0)%Z
             /\ (0 <= rateLimitedRequests m0)%Z ->
             let m1 := foldl handle m0 events in
             sumOfCounts (requestsPerEndpoint m1) = totalRequests m1
             /\ (0 <= totalRequests m1)%Z
             /\ (0 <= rateLimitedRequests m1)%Z).
  { induction events as [|e es IH]; intros m0 Hm0; [exact Hm0|].
    cbn [foldl]. apply IH. destruct Hm0 as (A & C & D).
    split; [now apply totals_handle | now apply counts_handle]. }
  apply H. cbn. repeat split; lia.
Qed.
End MetricsCollectorFacts.

(** ** The four sums *)

Module SumToNFacts.
Import SumToN.

Local Open Scope Z_scope.

(** The triangular number, without the division. *)
Lemma twice_half n : 2 * (n * (n + 1) / 2) = n * (n + 1).
Proof.
  assert (H : (n * (n + 1)) mod 2 = 0).
  { rewrite Z.mul_mod by lia.
    destruct (Z.mod_pos_bound n 2 ltac:(lia)) as [A B].
    rewrite Z.add_mod by lia.
    assert (C : n mod 2 = 0 \/ n mod 2 = 1) by lia.
    destruct C as [-> | ->]; reflexivity. }
  pose proof (Z.div_mod (n * (n + 1)) 2 ltac:(lia)). lia.
Qed.

Lemma half_succ n : (n + 1) * (n + 1 + 1) / 2 = n * (n + 1) / 2 + (n + 1).
Proof.
  pose proof (twice_half n). pose proof (twice_half (n + 1)). nia.
Qed.

Lemma half_pred n : n + (n - 1) * (n - 1 + 1) / 2 = n * (n + 1) / 2.
Proof.
  replace (n - 1 + 1) with n by lia.
  replace ((n - 1) * n) with ((n - 1) * (n - 1 + 1)) by lia.
  pose proof (twice_half n). pose proof (twice_half (n - 1)). nia.
Qed.

Lemma exceeds_iff n : exceeds n = true <-> 134217728 <= n.
Proof.
  unfold exceeds, MAX_SAFE_INTEGER.
  rewrite andb_true_iff, !Z.ltb_lt.
  pose proof (twice_half n). split.
  - intros [H0 H1]. nia.
  - intros Hn. split; [lia | nia].
Qed.

Lemma exceeds_false n : exceeds n = false <-> n < 134217728.
Proof.
  rewrite <- not_true_iff_false, exceeds_iff. lia.
Qed.

Lemma loop_sum k :
  foldl (fun sum i => sum + i) 0 (seqZ 1 (Z.of_nat k))
  = Z.of_nat k * (Z.of_nat k + 1) / 2.
Proof.
  induction k as [|k IH]; [reflexivity|].
  rewrite seqZ_S, foldl_app, IH. cbn [foldl].
  rewrite Nat2Z.inj_succ. unfold Z.succ. rewrite half_succ. lia.
Qed.

Lemma recursion_returns k :
  forall depth n,
    n = Z.of_nat k -> n < 134217728 -> (k < depth)%nat ->
    sumToNWithRecursion depth n = Some (Returns (n * (n + 1) / 2)).
Proof.
  induction k as [|k IH]; intros depth n -> Hn Hd;
    (destruct depth as [|depth]; [lia|]); cbn [sumToNWithRecursion];
    rewrite (proj2 (exceeds_false _) Hn).
  - reflexivity.
  - replace (Z.of_nat (S k) =? 0) with false by (symmetry; apply Z.eqb_neq; lia).
    rewrite (IH depth (Z.of_nat (S k) - 1)) by lia.
    now rewrite half_pred.
Qed.

Lemma recursion_overflows depth :
  forall n, (n < 0 \/ (Z.of_nat depth <= n < 134217728)) ->
            sumToNWithRecursion depth n = None.
Proof.
  induction depth as [|depth IH]; intros n Hn; [reflexivity|].
  cbn [sumToNWithRecursion].
  rewrite (proj2 (exceeds_false n)) by lia.
  replace (n =? 0) with false by (symmetry; apply Z.eqb_neq; lia).
  rewrite IH by lia. reflexivity.
Qed.

Lemma memo_returns k :
  forall depth n memo,
    n = Z.of_nat k -> n < 134217728 -> (k < depth)%nat -> memoSound memo ->
    exists memo',
      sumToNMemoRecursion depth n memo
      = Some (Returns (n * (n + 1) / 2), memo')
      /\ memoSound memo' /\ memo ⊆ memo'
      /\ (0 < n -> memo' !! n = Some (n * (n + 1) / 2)).
Proof.
  induction k as [|k IH]; intros depth n memo -> Hn Hd Hs;
    (destruct depth as [|depth]; [lia|]); cbn [sumToNMemoRecursion];
    rewrite (proj2 (exceeds_false _) Hn).
  - exists memo. split; [reflexivity|]. split; [exact Hs|].
    split; [reflexivity|]. intros H. discriminate H.
  - replace (Z.of_nat (S k) <=? 0) with false
      by (symmetry; apply Z.leb_gt; lia).
    destruct (memo !! Z.of_nat (S k)) as [v|] eqn:E.
    + exists memo. destruct (Hs _ _ E) as [_ Hv]. subst v.
      split; [reflexivity|]. split; [exact Hs|]. split; [reflexivity|].
      intros _. exact E.
    + destruct (IH depth (Z.of_nat (S k) - 1) memo) as (memo1 & E1 & S1 & I1 & L1);
        [lia | lia | lia | exact Hs |].
      rewrite E1.
      rewrite half_pred. eexists. split; [reflexivity|]. split; [|split].
      * apply map_Forall_insert_2; [split; [lia | reflexivity] | exact S1].
      * destruct (memo1 !! Z.of_nat (S k)) as [w|] eqn:E2.
        -- destruct (S1 _ _ E2) as [_ ->].
           rewrite insert_id by exact E2. exact I1.
        -- etrans; [exact I1 | now apply insert_subseteq].
      * intros _. apply lookup_insert_eq.
Qed.

(** X18. For [0 <= n < 2^27] the loop and the formula return
    [n (n + 1) / 2]; so do the recursion and the memoized recursion when
    the stack has room for [n + 1] calls, the latter from any memo whose
    entries are right, which it keeps so. *)
Theorem sums_agree n :
  0 <= n < 134217728 ->
  sumToNWithLoop n = Returns (n * (n + 1) / 2)
  /\ sumToNWithFormula n = Returns (n * (n + 1) / 2)
  /\ (forall depth, (Z.to_nat n < depth)%nat ->
        sumToNWithRecursion depth n = Some (Returns (n * (n + 1) / 2)))
  /\ (forall depth memo, (Z.to_nat n < depth)%nat -> memoSound memo ->
        exists memo',
          sumToNMemoRecursion depth n memo
          = Some (Returns (n * (n + 1) / 2), memo')
          /\ memoSound memo').
Proof.
  intros [H0 H1].
  assert (He : exceeds n = false) by now apply exceeds_false.
  split; [|split; [|split]].
  - unfold sumToNWithLoop. rewrite He.
    rewrite <- (Z2Nat.id n H0) at 1. rewrite loop_sum.
    now rewrite Z2Nat.id.
  - unfold sumToNWithFormula. now rewrite He.
  - intros depth Hd. apply (recursion_returns (Z.to_nat n)); lia.
  - intros depth memo Hd Hs.
    destruct (memo_returns (Z.to_nat n) depth n memo) as (memo' & E & S' & _);
      [lia | lia | lia | exact Hs |].
    now exists memo'.
Qed.

Lemma sums_agree_witness :
  sumToNWithLoop 5 = Returns 15
  /\ sumToNWithFormula 5 = Returns 15
  /\ sumToNWithRecursion 6 5 = Some (Returns 15).
Proof.
  destruct (sums_agree 5 ltac:(lia)) as (A & B & C & _).
  split; [exact A|]. split; [exact B|]. apply (C 6%nat). cbn. lia.
Defined.

(** X19. From [n = 134217728 = 2^27] on, all four functions throw
    ['Result exceeds Number.MAX_SAFE_INTEGER'], the memoized one without
    touching the memo. *)
Theorem guard_threshold n :
  134217728 <= n ->
  sumToNWithLoop n = tooLarge
  /\ sumToNWithFormula n = tooLarge
  /\ (forall depth, sumToNWithRecursion (S depth) n = Some tooLarge)
  /\ (forall depth memo,
        sumToNMemoRecursion (S depth) n memo = Some (tooLarge, memo)).
Proof.
  intros Hn. apply exceeds_iff in Hn.
  unfold sumToNWithLoop, sumToNWithFormula. cbn [sumToNWithRecursion
    sumToNMemoRecursion]. rewrite Hn. now repeat split.
Qed.

Lemma guard_threshold_witness :
  sumToNWithLoop 134217728 = tooLarge
  /\ sumToNWithFormula 134217728 = tooLarge
  /\ sumToNWithFormula 134217727 = Returns 9007199187632128.
Proof.
  destruct (guard_threshold 134217728 ltac:(lia)) as (A & B & _).
  split; [exact A|]. split; [exact B|]. reflexivity.
Defined.

(** X20. On a negative integer the four functions differ: the loop and
    the memoized recursion return 0, and the plain recursion never
    returns, whatever room the stack has.  The formula has no guard for a
    negative argument; for [-2^27 <= n < 0], where the product
    [n (n + 1)] is even and below [2^54] and so a double, it returns
    [n (n + 1) / 2], a value below [2^53] that is positive from [-2]
    downwards.  (Further down the product is rounded, and the integers
    no longer say what the formula returns.) *)
Theorem negative_argument n :
  n < 0 ->
  sumToNWithLoop n = Returns 0
  /\ (-134217728 <= n ->
      sumToNWithFormula n = Returns (n * (n + 1) / 2)
      /\ n * (n + 1) < 18014398509481984
      /\ 0 <= n * (n + 1) / 2 < 9007199254740992
      /\ (n <= -2 -> 0 < n * (n + 1) / 2))
  /\ (forall depth, sumToNWithRecursion depth n = None)
  /\ (forall depth memo,
        sumToNMemoRecursion (S depth) n memo = Some (Returns 0, memo)).
Proof.
  intros Hn.
  assert (He : exceeds n = false) by (apply exceeds_false; lia).
  pose proof (twice_half n) as Ht.
  split; [|split; [|split]].
  - unfold sumToNWithLoop. rewrite He, seqZ_nil by lia. reflexivity.
  - intros Hlow. split; [|split; [|split]].
    + unfold sumToNWithFormula. now rewrite He.
    + nia.
    + nia.
    + intros H2. nia.
  - intros depth. apply recursion_overflows. lia.
  - intros depth memo. cbn [sumToNMemoRecursion]. rewrite He.
    replace (n <=? 0) with true by (symmetry; apply Z.leb_le; lia).
    reflexivity.
Qed.

Lemma negative_argument_witness :
  sumToNWithLoop (-3) = Returns 0
  /\ sumToNWithFormula (-3) = Returns 3
  /\ sumToNWithRecursion 1000 (-3) = None.
Proof.
  destruct (negative_argument (-3) ltac:(lia)) as (A & B & C & _).
  split; [exact A|]. split; [exact (proj1 (B ltac:(lia)))|]. apply C.
Defined.

(** X21. For [0 <= n < 2^27] the plain recursion runs out of stack
    exactly when there is room for at most [n] nested calls, and returns
    the sum otherwise. *)
Theorem recursion_needs_stack n depth :
  0 <= n < 134217728 ->
  (sumToNWithRecursion depth n = None <-> (Z.of_nat depth <= n))
  /\ (n < Z.of_nat depth ->
      sumToNWithRecursion depth n = Some (Returns (n * (n + 1) / 2))).
Proof.
  intros [H0 H1].
  assert (Hret : n < Z.of_nat depth ->
                 sumToNWithRecursion depth n
                 = Some (Returns (n * (n + 1) / 2))).
  { intros Hd. apply (recursion_returns (Z.to_nat n)); lia. }
  split; [|exact Hret]. split.
  - intros Hnone. destruct (Z.le_gt_cases (Z.of_nat depth) n) as [H|H];
      [exact H|]. rewrite Hret in Hnone by lia. discriminate.
  - intros Hd. apply recursion_overflows. lia.
Qed.

Lemma recursion_needs_stack_witness :
  sumToNWithRecursion 5 5 = None
  /\ sumToNWithRecursion 6 5 = Some (Returns 15).
Proof.
  destruct (recursion_needs_stack 5 5 ltac:(lia)) as [A _].
  destruct (recursion_needs_stack 5 6 ltac:(lia)) as [_ B].
  split; [apply A; cbn; lia | apply B; cbn; lia].
Defined.

(** X22. After a memoized call for [0 < n < 2^27] the memo extends the
    one before, every entry of it is right, it holds the sum for [n], and
    a second call for [n] returns that sum with room for one call only and
    leaves the memo as it is. *)
Theorem memo_is_reused n depth memo :
  0 < n < 134217728 -> (Z.to_nat n < depth)%nat -> memoSound memo ->
  exists memo',
    sumToNMemoRecursion depth n memo
    = Some (Returns (n * (n + 1) / 2), memo')
    /\ memoSound memo'
    /\ memo ⊆ memo'
    /\ memo' !! n = Some (n * (n + 1) / 2)
    /\ sumToNMemoRecursion 1 n memo'
       = Some (Returns (n * (n + 1) / 2), memo').
Proof.
  intros [H0 H1] Hd Hs.
  destruct (memo_returns (Z.to_nat n) depth n memo)
    as (memo' & E & S' & I' & L'); [lia | lia | lia | exact Hs |].
  specialize (L' H0).
  exists memo'. split; [exact E|]. split; [exact S'|]. split; [exact I'|].
  split; [exact L'|]. unfold sumToNMemoRecursion.
  rewrite (proj2 (exceeds_false n)) by lia.
  replace (n <=? 0) with false by (symmetry; apply Z.leb_gt; lia).
  now rewrite L'.
Qed.

Lemma memo_is_reused_witness :
  exists memo',
    sumToNMemoRecursion 6 5 ∅ = Some (Returns (5 * (5 + 1) / 2), memo')
    /\ memoSound memo'
    /\ ∅ ⊆ memo'
    /\ memo' !! 5 = Some (5 * (5 + 1) / 2)
    /\ sumToNMemoRecursion 1 5 memo'
       = Some (Returns (5 * (5 + 1) / 2), memo').
Proof.
  apply (memo_is_reused 5 6 ∅); [lia | cbn; lia | apply map_Forall_empty].
Defined.
End SumToNFacts.
